(** * Identifier redaction with overlap resolution

    A shallow embedding of the identifier redactor of the
    anonymization-filter repository:

    - [replace_identifiers]        (src/filter_ID.py, src/full_anon.py)
    - [reemplazar_identificadores] (dataset_filter_ID.py, src/text_filter_ID.py)

    together with the two pattern tables they scan with ([RAW_PATTERNS]
    and [ordered_regex_patterns]).

    A Python [str] is a sequence of Unicode code points, so a text is a
    [list N].  Offsets and widths are [nat]; the sort key, which negates
    a width, is computed in [Z]. *)

From Stdlib Require Import List Bool Arith NArith ZArith Lia String Ascii.
From Stdlib Require Import Permutation Sorted.
Import ListNotations.

(* ===================================================================== *)
(** ** Code points and text *)
(* ===================================================================== *)

Definition text := list N.

(** The source files are UTF-8; a Rocq string literal is a byte string.
    [utf8_decode] recovers the code points (one to four bytes each). *)
Fixpoint utf8_decode (bs : list N) : text :=
  match bs with
  | [] => []
  | b0 :: r0 =>
    if (b0 <? 128)%N then b0 :: utf8_decode r0
    else match r0 with
    | [] => [b0]
    | b1 :: r1 =>
      if (b0 <? 224)%N
      then ((b0 - 192) * 64 + (b1 - 128))%N :: utf8_decode r1
      else match r1 with
      | [] => [b0]
      | b2 :: r2 =>
        if (b0 <? 240)%N
        then ((b0 - 224) * 4096 + (b1 - 128) * 64 + (b2 - 128))%N
               :: utf8_decode r2
        else match r2 with
        | [] => [b0]
        | b3 :: r3 =>
          ((b0 - 240) * 262144 + (b1 - 128) * 4096
             + (b2 - 128) * 64 + (b3 - 128))%N :: utf8_decode r3
        end
      end
    end
  end.

Definition bytes_of (s : string) : list N :=
  map N_of_ascii (list_ascii_of_string s).

(** [str s]: the Python string written [s] in a UTF-8 source file. *)
Definition str (s : string) : text := utf8_decode (bytes_of s).

(** Code points that the patterns and the placeholder name. *)
Definition cp_space : N := 32.
Definition cp_lparen : N := 40.
Definition cp_rparen : N := 41.
Definition cp_star : N := 42.
Definition cp_plus : N := 43.
Definition cp_comma : N := 44.
Definition cp_minus : N := 45.
Definition cp_dot : N := 46.
Definition cp_colon : N := 58.
Definition cp_lt : N := 60.
Definition cp_gt : N := 62.
Definition cp_quest : N := 63.
Definition cp_lbrack : N := 91.
Definition cp_bslash : N := 92.
Definition cp_rbrack : N := 93.
Definition cp_caret : N := 94.
Definition cp_dollar : N := 36.
Definition cp_lbrace : N := 123.
Definition cp_bar : N := 124.
Definition cp_rbrace : N := 125.
Definition cp_b : N := 98.
Definition cp_d : N := 100.
Definition cp_s : N := 115.

(* ===================================================================== *)
(** ** Regular expressions: the fragment the two pattern tables use *)
(* ===================================================================== *)

(** One member of a bracket class.  A literal outside brackets is the
    one-member class of that literal. *)
Inductive citem : Type :=
| CLit (a : N)            (* a literal code point *)
| CRange (lo hi : N)      (* lo-hi *)
| CDigit                  (* \d *)
| CSpace.                 (* \s *)

Definition cclass := list citem.

(** The tables use word boundaries, one-character classes, greedy bounded
    repetition of a one-character class ([x{m}], [x{m,n}], [x?]),
    concatenation, and one group with alternatives. *)
Inductive regex : Type :=
| REps
| RBnd                                  (* \b *)
| RSet (cs : cclass)
| RRep (lo hi : nat) (cs : cclass)
| RCat (r1 r2 : regex)
| RAlt (r1 r2 : regex).

(** *** Parsing pattern sources ([re.compile]) *)

Definition is_dec_digit (c : N) : bool := ((48 <=? c) && (c <=? 57))%N.

Fixpoint parse_nat_acc (acc : nat) (l : text) : nat * text :=
  match l with
  | c :: r =>
    if is_dec_digit c
    then parse_nat_acc (10 * acc + N.to_nat (c - 48)) r
    else (acc, l)
  | [] => (acc, l)
  end.

(** A decimal number, at least one digit. *)
Definition parse_nat (l : text) : option (nat * text) :=
  match l with
  | c :: _ => if is_dec_digit c then Some (parse_nat_acc 0 l) else None
  | [] => None
  end.

(** The members of a bracket class, after the opening bracket and up to
    and including the closing one.  A minus sign is a literal unless it
    stands between two members. *)
Fixpoint parse_class (l : text) : option (cclass * text) :=
  match l with
  | [] => None
  | a :: r =>
    if (a =? cp_rbrack)%N then Some ([], r)
    else if (a =? cp_bslash)%N then
      match r with
      | e :: r' =>
        if (e =? cp_d)%N then
          option_map (fun p => (CDigit :: fst p, snd p)) (parse_class r')
        else if (e =? cp_s)%N then
          option_map (fun p => (CSpace :: fst p, snd p)) (parse_class r')
        else None
      | [] => None
      end
    else
      match r with
      | m :: b :: r' =>
        if ((m =? cp_minus) && negb (b =? cp_rbrack))%N then
          if ((b =? cp_bslash) || (b <? a))%N then None
          else option_map (fun p => (CRange a b :: fst p, snd p))
                          (parse_class r')
        else option_map (fun p => (CLit a :: fst p, snd p)) (parse_class r)
      | _ => option_map (fun p => (CLit a :: fst p, snd p)) (parse_class r)
      end
  end.

(** An optional quantifier after a one-character item.  Lazy and
    possessive suffixes do not occur in the tables and are refused. *)
Definition no_suffix (l : text) : bool :=
  match l with
  | c :: _ => negb ((c =? cp_quest) || (c =? cp_plus))%N
  | [] => true
  end.

Definition parse_quant (cs : cclass) (l : text) : option (regex * text) :=
  match l with
  | c :: r =>
    if (c =? cp_quest)%N then
      if no_suffix r then Some (RRep 0 1 cs, r) else None
    else if (c =? cp_lbrace)%N then
      match parse_nat r with
      | Some (lo, r1) =>
        match r1 with
        | c1 :: r2 =>
          if (c1 =? cp_rbrace)%N then
            if no_suffix r2 then Some (RRep lo lo cs, r2) else None
          else if (c1 =? cp_comma)%N then
            match parse_nat r2 with
            | Some (hi, c2 :: r3) =>
              if ((c2 =? cp_rbrace)%N && (lo <=? hi) && no_suffix r3)%bool
              then Some (RRep lo hi cs, r3) else None
            | _ => None
            end
          else None
        | [] => None
        end
      | None => None
      end
    else if ((c =? cp_star) || (c =? cp_plus))%N then None
    else Some (RSet cs, l)
  | [] => Some (RSet cs, l)
  end.

Definition is_special (c : N) : bool :=
  ((c =? cp_quest) || (c =? cp_star) || (c =? cp_plus) || (c =? cp_dot)
   || (c =? cp_lbrace) || (c =? cp_rbrace) || (c =? cp_rbrack)
   || (c =? cp_caret) || (c =? cp_dollar))%N.

(** [parse_seq] reads items up to a bar, a closing parenthesis or the
    end; [parse_alt] reads bar-separated sequences.  Every step consumes
    a code point, so the length of the source is enough fuel. *)
Fixpoint parse_seq (fuel : nat) (l : text) {struct fuel}
  : option (regex * text) :=
  match fuel with
  | O => None
  | S fuel' =>
    let cont (p : option (regex * text)) :=
      match p with
      | Some (r1, rest) =>
        option_map (fun q => (RCat r1 (fst q), snd q)) (parse_seq fuel' rest)
      | None => None
      end in
    match l with
    | [] => Some (REps, [])
    | c :: r =>
      if ((c =? cp_bar) || (c =? cp_rparen))%N then Some (REps, l)
      else if (c =? cp_bslash)%N then
        match r with
        | e :: r' =>
          if (e =? cp_b)%N then cont (Some (RBnd, r'))
          else if (e =? cp_d)%N then cont (parse_quant [CDigit] r')
          else if (e =? cp_s)%N then cont (parse_quant [CSpace] r')
          else None
        | [] => None
        end
      else if (c =? cp_lbrack)%N then
        match parse_class r with
        | Some (cs, r') => cont (parse_quant cs r')
        | None => None
        end
      else if (c =? cp_lparen)%N then
        let body :=
          match r with
          | q :: k :: r' =>
            if ((q =? cp_quest) && (k =? cp_colon))%N then r' else r
          | _ => r
          end in
        match parse_alt fuel' body with
        | Some (g, c' :: rest) =>
          if (c' =? cp_rparen)%N then cont (Some (g, rest)) else None
        | _ => None
        end
      else if is_special c then None
      else cont (parse_quant [CLit c] r)
    end
  end

with parse_alt (fuel : nat) (l : text) {struct fuel}
  : option (regex * text) :=
  match fuel with
  | O => None
  | S fuel' =>
    match parse_seq fuel' l with
    | Some (r1, c :: rest) =>
      if (c =? cp_bar)%N then
        option_map (fun q => (RAlt r1 (fst q), snd q)) (parse_alt fuel' rest)
      else Some (r1, c :: rest)
    | other => other
    end
  end.

(** [re.compile]: [None] stands for the [re.error] raised on a source
    that is malformed (or outside the fragment above). *)
Definition compile (src : string) : option regex :=
  let l := str src in
  match parse_alt (2 * (List.length l) + 2) l with
  | Some (r, []) => Some r
  | _ => None
  end.

Fixpoint compile_all (tbl : list (string * string)) : option (list regex) :=
  match tbl with
  | [] => Some []
  | (_, src) :: rest =>
    match compile src, compile_all rest with
    | Some r, Some rs => Some (r :: rs)
    | _, _ => None
    end
  end.

(* ===================================================================== *)
(** ** The pattern tables *)
(* ===================================================================== *)

Local Open Scope string_scope.

(** src/filter_ID.py and src/full_anon.py: [RAW_PATTERNS], in insertion
    order. *)
Definition RAW_PATTERNS : list (string * string) :=
  [ ("CI_NIC",  "\b\d{3}[-\s]\d{6}[-\s]\d{4}[A-Z]?\b");
    ("RUC_NIC", "\b\d{3}[-\s]\d{6}[-\s]\d{4}[A-Z]?\b");
    ("CPF_BRA", "\b\d{3}[.\s-]\d{3}[.\s-]\d{3}[.\s-]\d{2}\b");
    ("DPI_GTM", "\b\d{4}\s\d{5}\s\d{4}\b");
    ("CURP_MEX", "\b[A-Z]{4}-?\d{6}-?[HM][A-Z]{5}[A-Z0-9]\b");
    ("RFC_MEX", "\b[A-ZÑ&]{3,4}-?\d{6}-?[A-Z0-9]{3}\b");
    ("RIF_VEN", "\b[JGVEP][- ]\d{8}[- ]\d\b");
    ("CI_BOL", "\b\d{6,8}[-\s][A-Z]{2}\b");
    ("RUC_PRY", "\b\d{6,8}[A-Z]?[-\s]\d\b");
    ("CUIT_ARG", "\b\d{2}[.\s-]\d{8}[.\s-]\d\b");
    ("CI_URU", "\b\d{1,2}[.\s-]\d{3}[.\s-]\d{3}[.\s-]\d\b");
    ("RUT_CHI", "\b\d{1,2}[.\s-]\d{3}[.\s-]\d{3}[.\s-]?[\dkK]\b");
    ("CI_VEN", "\b[VvEe][- ]\d{6,8}\b");
    ("PAS_ARG", "\bAA[-\s]\d{7}\b");
    ("PAS_CHI", "\b[Cc]-\d{8}\b");
    ("PAS_MEX", "\bG-\d{8}\b");
    ("ID_HTI", "\b\d{2}[-\s]\d{2}[-\s]\d{2}[-\s]\d{5}\b");
    ("CI_CRI", "\bCR[-\s]?\d[-\s]?\d{4}[-\s]?\d{4}\b");
    ("CI_CUB", "\bCUB[-\s]?\d{6}[-\s]?\d{5}\b");
    ("NIT_BOL", "\bBO[-\s]?\d{6,8}[-\s]?\d\b");
    ("NIT_COL", "\bCOL[-\s]?\d{8,10}-\d\b");
    ("NIT_GTM", "\bGT[-\s]?\d{6,8}[-\s]?\d\b");
    ("NIT_SLV", "\bSV[-\s]?\d{4}[-\s]?\d{6}[-\s]?\d{3}[-\s]?\d\b");
    ("RNC_DOM", "\bRD[-\s]?\d[-\s]?\d{2}[-\s]?\d{5}[-\s]?\d\b");
    ("RTN_HND", "\bHN[-\s]?\d{4}[-\s]?\d{4}[-\s]?\d{5}\b");
    ("RUC_ECU", "\bEC[-\s]?\d{10}[-\s]?\d{3}\b");
    ("RUC_PAN", "\bP[-\s]?\d{1,4}[-\s]?\d{1,4}[-\s]?\d{1,4}\b");
    ("RUC_PER", "\bPE[-\s]?(10|15|16|17|20)\d{8}\b") ].

(** dataset_filter_ID.py and src/text_filter_ID.py:
    [ordered_regex_patterns], in insertion order. *)
Definition ordered_regex_patterns : list (string * string) :=
  [ ("NIT_SLV", "\b\d{4}(?:[-\s])\d{6}(?:[-\s])\d{3}(?:[-\s])\d\b");
    ("RNC_DOM", "\b\d{1}(?:[-\s])\d{2}(?:[-\s])\d{5}(?:[-\s])\d\b");
    ("RTN_HND", "\b\d{4}(?:[-\s])\d{4}(?:[-\s])\d{5}\b");
    ("CI_NIC", "\b\d{3}(?:[-\s])\d{6}(?:[-\s])\d{4}[A-Z]?\b");
    ("RUC_NIC", "\b\d{3}(?:[-\s])\d{6}(?:[-\s])\d{4}[A-Z]?\b");
    ("RUC_ECU", "\b\d{10}(?:[-\s])\d{3}\b");
    ("CIE_DOM", "\b\d{3}(?:[-\s])\d{7}(?:[-\s])\d\b");
    ("CPF_BRA", "\b\d{3}(?:[.\s-])\d{3}(?:[.\s-])\d{3}(?:[.\s-])\d{2}\b");
    ("RUC_PAN", "\b\d{1,4}(?:[-\s])\d{1,4}(?:[-\s])\d{1,4}\b");
    ("CI_CUB", "\b\d{6}(?:[-\s])\d{5}\b");
    ("CI_CRI", "\b\d{1}(?:[-\s])\d{4}(?:[-\s])\d{4}\b");
    ("DPI_GTM", "\b\d{4}\s\d{5}\s\d{4}\b");
    ("CURP_MEX", "\b[A-Z]{4}[-]?\d{6}[-]?[HM][A-Z]{5}[A-Z0-9]\b");
    ("RFC_MEX", "\b[A-ZÑ&]{3,4}[-]?\d{6}[-]?[A-Z0-9]{3}\b");
    ("RIF_VEN", "\b[JGVEP](?:[-\s])\d{8}(?:[-\s])\d\b");
    ("CI_BOL", "\b\d{6,8}(?:[-\s])[A-Z]{2}\b");
    ("RUC_PRY", "\b\d{6,8}[A-Z]?(?:[-\s])\d\b");
    ("CUIT_ARG", "\b\d{2}[.\s-]\d{8}[.\s-]\d\b");
    ("NIT_COL", "\b\d{8,10}-\d\b");
    ("CI_URU", "\b\d{1,2}[.\s-]\d{3}[.\s-]\d{3}[.\s-]\d\b");
    ("RUT_CHI", "\b\d{1,2}[.\s-]\d{3}[.\s-]\d{3}[.\s-]?[\dkK]\b");
    ("CI_VEN", "\b[VvEe](?:[-\s])\d{6,8}\b");
    ("PAS_ARG", "\bAA(?:[-\s])\d{7}\b");
    ("PAS_CHI", "\b[Cc](?:[-\s])\d{8}\b");
    ("PAS_MEX", "\bG(?:[-\s])\d{8}\b");
    ("NIT_GTM", "\b\d{6,8}(?:[-\s])\d\b");
    ("NIT_BOL", "\b\d{6,8}(?:[-\s])\d\b");
    ("ID_HTI", "\b\d{2}(?:[-\s])\d{2}(?:[-\s])\d{2}(?:[-\s])\d{5}\b") ].

Local Close Scope string_scope.

Definition compiled_or_nil (tbl : list (string * string)) : list regex :=
  match compile_all tbl with
  | Some rs => rs
  | None => []
  end.

(** [PATTERNS = [re.compile(p, flags=re.IGNORECASE) for p in
    RAW_PATTERNS.values()]]. *)
Definition PATTERNS : list regex :=
  Eval vm_compute in compiled_or_nil RAW_PATTERNS.

(** The second module compiles its sources inside [re.finditer]; the
    compiled patterns are the same on every call. *)
Definition ORDERED_PATTERNS : list regex :=
  Eval vm_compute in compiled_or_nil ordered_regex_patterns.

(* ===================================================================== *)
(** ** Character tables *)
(* ===================================================================== *)

(** What [re] reads from the Unicode database: the categories behind
    [\d], [\s] and [\w] (the last decides [\b]), and which code points a
    pattern literal matches under [re.IGNORECASE].  The database is not
    part of the repository, so the matcher takes it as a parameter. *)
Record chartab : Type := MkTab {
  uni_digit : N -> bool;
  uni_space : N -> bool;
  uni_word  : N -> bool;
  ci_eq     : N -> N -> bool   (* [ci_eq a c]: text code point [c] matches literal [a] *)
}.

(** The database restricted to ASCII: code points from 128 on are
    unclassified symbols.  It agrees with CPython on texts and literals
    below 128 and serves to run the model on such texts. *)
Definition ascii_lower (c : N) : N :=
  if ((65 <=? c) && (c <=? 90))%N then (c + 32)%N else c.

Definition ascii_tab : chartab := {|
  uni_digit := is_dec_digit;
  uni_space := fun c =>
    (((9 <=? c) && (c <=? 13)) || ((28 <=? c) && (c <=? 32)))%N;
  uni_word := fun c =>
    (is_dec_digit c || ((65 <=? c) && (c <=? 90))
     || ((97 <=? c) && (c <=? 122)) || (c =? 95))%N;
  ci_eq := fun a c => (ascii_lower a =? ascii_lower c)%N
|}.

(* ===================================================================== *)
(** ** Matching: the backtracking search of [re] *)
(* ===================================================================== *)

Definition span := (nat * nat)%type.

Section Matcher.

Variable U : chartab.

Definition N_range (lo hi : N) : list N :=
  map (fun k => (lo + N.of_nat k)%N) (seq 0 (N.to_nat (hi + 1 - lo))).

(** Under IGNORECASE a range matches whatever one of its members
    matches. *)
Definition item_match (it : citem) (c : N) : bool :=
  match it with
  | CLit a => ci_eq U a c
  | CRange lo hi => existsb (fun a => ci_eq U a c) (N_range lo hi)
  | CDigit => uni_digit U c
  | CSpace => uni_space U c
  end.

Definition in_class (cs : cclass) (c : N) : bool :=
  existsb (fun it => item_match it c) cs.

Variable t : text.

Definition word_at (i : nat) : bool :=
  match nth_error t i with
  | Some c => uni_word U c
  | None => false
  end.

Definition word_before (i : nat) : bool :=
  match i with
  | O => false
  | S j => word_at j
  end.

(** [\b]: exactly one of the neighbours is a word character; the two
    ends of the text count as non-word. *)
Definition at_boundary (i : nat) : bool := xorb (word_before i) (word_at i).

Definition class_at (cs : cclass) (i : nat) : bool :=
  match nth_error t i with
  | Some c => in_class cs c
  | None => false
  end.

(** Greedy bounded repetition: take one more while allowed, fall back
    to the continuation once the lower bound is met. *)
Fixpoint rep (cs : cclass) (lo hi : nat) (i : nat)
         (k : nat -> option nat) : option nat :=
  match hi with
  | O => match lo with O => k i | S _ => None end
  | S hi' =>
    match (if class_at cs i then rep cs (pred lo) hi' (S i) k else None) with
    | Some e => Some e
    | None => match lo with O => k i | S _ => None end
    end
  end.

(** [run r i k]: match [r] from offset [i], then the rest of the
    pattern [k]; alternatives are tried left to right. *)
Fixpoint run (r : regex) (i : nat) (k : nat -> option nat) : option nat :=
  match r with
  | REps => k i
  | RBnd => if at_boundary i then k i else None
  | RSet cs => if class_at cs i then k (S i) else None
  | RRep lo hi cs => rep cs lo hi i k
  | RCat r1 r2 => run r1 i (fun j => run r2 j k)
  | RAlt r1 r2 =>
    match run r1 i k with
    | Some e => Some e
    | None => run r2 i k
    end
  end.

(** The end of the match that starts at [i], if there is one. *)
Definition match_at (r : regex) (i : nat) : option nat := run r i Some.

(** [pattern.finditer(text)]: leftmost matches, each search resuming
    where the previous match ended.  No pattern of the tables matches
    the empty string; after an empty match the scan moves on by one. *)
Fixpoint scan (fuel : nat) (r : regex) (i : nat) : list span :=
  match fuel with
  | O => []
  | S fuel' =>
    if List.length t <? i then []
    else match match_at r i with
         | Some e => (i, e) :: scan fuel' r (if e =? i then S i else e)
         | None => scan fuel' r (S i)
         end
  end.

Definition finditer (r : regex) : list span :=
  scan (S (List.length t)) r 0.

End Matcher.

(** Step 1 of both redactors: the matches of every pattern, pattern by
    pattern. *)
Definition collect (U : chartab) (pats : list regex) (t : text) : list span :=
  flat_map (fun pat => finditer U t pat) pats.

(* ===================================================================== *)
(** ** List primitives of the redactor *)
(* ===================================================================== *)

(** [label.ljust(width)]: pad with spaces on the right; a label at least
    [width] long comes back as it is. *)
Definition ljust (label : text) (width : nat) : text :=
  label ++ repeat cp_space (width - List.length label).

(** [l[s:e]] for offsets that are not negative. *)
Definition slice {A : Type} (l : list A) (s e : nat) : list A :=
  firstn (e - s) (skipn s l).

(** [any(bs)] *)
Definition any (bs : list bool) : bool := existsb (fun b => b) bs.

(** [l[s:e] = r]: the slice is replaced by [r], whatever the length of
    [r]; an empty slice makes it an insertion at [s]. *)
Definition slice_assign {A : Type} (l : list A) (s e : nat) (r : list A)
  : list A :=
  firstn s l ++ r ++ skipn (Nat.max s e) l.

(** [l[i] = v]; [None] is the IndexError of an offset past the end. *)
Fixpoint set_index {A : Type} (l : list A) (i : nat) (v : A)
  : option (list A) :=
  match l, i with
  | [], _ => None
  | _ :: l', O => Some (v :: l')
  | x :: l', S j => option_map (cons x) (set_index l' j v)
  end.

(** [for i in range(s, s + n): occupied[i] = True] *)
Fixpoint mark (occupied : list bool) (s n : nat) : option (list bool) :=
  match n with
  | O => Some occupied
  | S n' =>
    match set_index occupied s true with
    | Some occ' => mark occ' (S s) n'
    | None => None
    end
  end.

(** *** Ordering the candidates *)

(** The sort key [(-(s[1] - s[0]), s[0])]. *)
Definition sort_key (sp : span) : Z * Z :=
  (- (Z.of_nat (snd sp) - Z.of_nat (fst sp)), Z.of_nat (fst sp))%Z.

(** Python compares tuples lexicographically. *)
Definition key_leb (k1 k2 : Z * Z) : bool :=
  ((fst k1 <? fst k2) || ((fst k1 =? fst k2) && (snd k1 <=? snd k2)))%Z.

Definition span_leb (x y : span) : bool := key_leb (sort_key x) (sort_key y).

(** [list.sort] is stable: an element goes in front of the first one
    whose key is not smaller, so equal keys keep their order. *)
Fixpoint insert_span (x : span) (l : list span) : list span :=
  match l with
  | [] => [x]
  | y :: l' => if span_leb x y then x :: l else y :: insert_span x l'
  end.

Fixpoint sort_spans (l : list span) : list span :=
  match l with
  | [] => []
  | x :: l' => insert_span x (sort_spans l')
  end.

(* ===================================================================== *)
(** ** The redactors *)
(* ===================================================================== *)

(** The placeholder ["<ID>"]. *)
Definition ID_LABEL : text := [cp_lt; 73%N; 68%N; cp_gt].

(** The state of the replacement loop: [chars] and [occupied]. *)
Definition rstate := (text * list bool)%type.

(** One turn of the loop over the sorted spans.  [fit w] is the
    replacement written for a span of width [w]. *)
Definition redact_step (fit : nat -> text) (st : rstate) (sp : span)
  : option rstate :=
  let '(chars, occupied) := st in
  let '(start, stop) := sp in
  if any (slice occupied start stop) then Some st
  else
    let chars' := slice_assign chars start stop (fit (stop - start)) in
    match mark occupied start (stop - start) with
    | Some occupied' => Some (chars', occupied')
    | None => None
    end.

Fixpoint redact_loop (fit : nat -> text) (spans : list span) (st : rstate)
  : option rstate :=
  match spans with
  | [] => Some st
  | sp :: rest =>
    match redact_step fit st sp with
    | Some st' => redact_loop fit rest st'
    | None => None
    end
  end.

(** [repl = list(label.ljust(end - start))] (src/filter_ID.py,
    src/full_anon.py): no truncation. *)
Definition fit_ljust (label : text) (w : nat) : text := ljust label w.

(** [reemplazo[:end - start]] with [reemplazo = list("<ID>".ljust(end -
    start))] (dataset_filter_ID.py, src/text_filter_ID.py). *)
Definition fit_trunc (label : text) (w : nat) : text :=
  firstn w (ljust label w).

Section Redactors.

Variable U : chartab.

(** [replace_identifiers(text, label)] over a given pattern list;
    [None] is an exception escaping the function. *)
Definition replace_identifiers_with (pats : list regex)
           (txt : text) (label : text) : option text :=
  let spans := collect U pats txt in
  match spans with
  | [] => Some txt
  | _ =>
    let spans := sort_spans spans in
    let chars := txt in
    let occupied := repeat false (List.length chars) in
    match redact_loop (fit_ljust label) spans (chars, occupied) with
    | Some (chars', _) => Some chars'
    | None => None
    end
  end.

Definition replace_identifiers (txt : text) (label : text) : option text :=
  replace_identifiers_with PATTERNS txt label.

(** [reemplazar_identificadores(texto)] over a given pattern list: no
    early return, fixed label, truncated replacement. *)
Definition reemplazar_identificadores_with (pats : list regex)
           (texto : text) : option text :=
  let reemplazos := collect U pats texto in
  let reemplazos := sort_spans reemplazos in
  let ocupado := repeat false (List.length texto) in
  let resultado := texto in
  match redact_loop (fit_trunc ID_LABEL) reemplazos (resultado, ocupado) with
  | Some (resultado', _) => Some resultado'
  | None => None
  end.

Definition reemplazar_identificadores (texto : text) : option text :=
  reemplazar_identificadores_with ORDERED_PATTERNS texto.

End Redactors.

(* ===================================================================== *)
(** ** Specification-side notions *)
(* ===================================================================== *)

(** *** What it means for a pattern to match a range of a text *)

Section Semantics.

Variable U : chartab.
Variable t : text.

(** [all_class cs i n]: the [n] code points from offset [i] are all in
    the class. *)
Fixpoint all_class (cs : cclass) (i n : nat) : bool :=
  match n with
  | O => true
  | S n' => class_at U t cs i && all_class cs (S i) n'
  end.

(** [Matches r s e]: pattern [r] matches exactly the range [s, e) of
    the text, the word boundaries being judged in the whole text. *)
Inductive Matches : regex -> nat -> nat -> Prop :=
| M_eps : forall i, Matches REps i i
| M_bnd : forall i, at_boundary U t i = true -> Matches RBnd i i
| M_set : forall cs i, class_at U t cs i = true -> Matches (RSet cs) i (S i)
| M_rep : forall cs lo hi i n,
    lo <= n -> n <= hi -> all_class cs i n = true ->
    Matches (RRep lo hi cs) i (i + n)
| M_cat : forall r1 r2 i j e,
    Matches r1 i j -> Matches r2 j e -> Matches (RCat r1 r2) i e
| M_alt_l : forall r1 r2 i e, Matches r1 i e -> Matches (RAlt r1 r2) i e
| M_alt_r : forall r1 r2 i e, Matches r2 i e -> Matches (RAlt r1 r2) i e.

End Semantics.

(** The least number of code points a match of the pattern spans. *)
Fixpoint min_width (r : regex) : nat :=
  match r with
  | REps => 0
  | RBnd => 0
  | RSet _ => 1
  | RRep lo _ _ => lo
  | RCat r1 r2 => min_width r1 + min_width r2
  | RAlt r1 r2 => Nat.min (min_width r1) (min_width r2)
  end.

(** [avoids x r]: the pattern names [x] neither as a literal nor inside
    a range. *)
Definition item_avoids (x : N) (it : citem) : bool :=
  match it with
  | CLit a => negb (a =? x)%N
  | CRange lo hi => negb ((lo <=? x) && (x <=? hi))%N
  | CDigit => true
  | CSpace => true
  end.

Fixpoint avoids (x : N) (r : regex) : bool :=
  match r with
  | REps => true
  | RBnd => true
  | RSet cs => forallb (item_avoids x) cs
  | RRep _ _ cs => forallb (item_avoids x) cs
  | RCat r1 r2 => avoids x r1 && avoids x r2
  | RAlt r1 r2 => avoids x r1 && avoids x r2
  end.

(** The pattern opens with [\b]. *)
Definition starts_with_bnd (r : regex) : bool :=
  match r with
  | RCat RBnd _ => true
  | _ => false
  end.

(** A code point that [re] treats as a plain symbol: no digit, no
    space, and matched by no literal but itself. *)
Definition plain_symbol (U : chartab) (x : N) : Prop :=
  uni_digit U x = false /\ uni_space U x = false /\
  forall a, ci_eq U a x = true -> a = x.

(** What the placeholder needs from the character tables: the angle
    brackets are plain symbols, and neither the closing bracket nor the
    padding space is a word character. *)
Definition placeholder_inert (U : chartab) : Prop :=
  plain_symbol U cp_lt /\ plain_symbol U cp_gt /\
  uni_word U cp_gt = false /\ uni_word U cp_space = false.

(** *** Span geometry *)

Definition width (sp : span) : nat := snd sp - fst sp.

(** Offset [i] lies in the span. *)
Definition covers (sp : span) (i : nat) : Prop := fst sp <= i < snd sp.

(** The two spans share an offset. *)
Definition overlaps (a b : span) : bool :=
  Nat.max (fst a) (fst b) <? Nat.min (snd a) (snd b).

Definition disjoint (a b : span) : Prop := snd a <= fst b \/ snd b <= fst a.

(** A span of a text of [n] code points: not empty and inside. *)
Definition span_ok (n : nat) (sp : span) : Prop := fst sp < snd sp <= n.

(** The processing order of the specification: longer spans first,
    equal widths by ascending start. *)
Definition before (x y : span) : Prop :=
  width y < width x \/ (width x = width y /\ fst x <= fst y).

(** *** Accepted spans *)

(** The spans that pass the occupancy test of the loop, in processing
    order, starting from the occupancy list [occupied]. *)
Fixpoint accepted (spans : list span) (occupied : list bool) : list span :=
  match spans with
  | [] => []
  | (start, stop) :: rest =>
    if any (slice occupied start stop) then accepted rest occupied
    else match mark occupied start (stop - start) with
         | Some occupied' => (start, stop) :: accepted rest occupied'
         | None => []
         end
  end.

(** The spans a call accepts on candidate list [cands] over a text of
    [n] code points. *)
Definition accepted_of (cands : list span) (n : nat) : list span :=
  accepted (sort_spans cands) (repeat false n).

(** Overwrite each span of [acc], in order, with the fitted label. *)
Definition rewrite_spans (fit : nat -> text) (acc : list span) (chars : text)
  : text :=
  fold_left
    (fun cs sp => slice_assign cs (fst sp) (snd sp) (fit (snd sp - fst sp)))
    acc chars.

(** Selection as the specification words it: go through the spans in
    order and keep a span unless it shares a position with a span kept
    before. *)
Fixpoint select (spans : list span) (kept : list span) : list span :=
  match spans with
  | [] => []
  | sp :: rest =>
    if existsb (overlaps sp) kept then select rest kept
    else sp :: select rest (sp :: kept)
  end.

(** Steps 2 to 5 on a candidate list: sort, then run the loop from an
    unoccupied text. *)
Definition resolve (fit : nat -> text) (cands : list span) (txt : text)
  : option text :=
  match redact_loop fit (sort_spans cands)
                    (txt, repeat false (List.length txt)) with
  | Some (chars, _) => Some chars
  | None => None
  end.

(* ===================================================================== *)
(** ** Notions used in the proofs *)
(* ===================================================================== *)

(** Every pattern of the list spans at least [w] code points. *)
Definition wide (w : nat) (pats : list regex) : bool :=
  forallb (fun r => w <=? min_width r) pats.

(** Every pattern of the list opens with a word boundary and names
    neither angle bracket. *)
Definition guarded (pats : list regex) : bool :=
  forallb (fun r => starts_with_bnd r && avoids cp_lt r && avoids cp_gt r)
          pats.

Definition sorted_spans (l : list span) : Prop :=
  StronglySorted (fun x y => span_leb x y = true) l.

Definition no_overlap (a b : span) : Prop := overlaps a b = false.

(** [occ] has [n] entries and marks exactly the offsets the kept spans
    cover. *)
Definition occupancy_of (n : nat) (kept : list span) (occ : list bool)
  : Prop :=
  List.length occ = n /\
  forall i, nth i occ false = true <-> exists sp, In sp kept /\ covers sp i.

(** A span inside a text of [n] code points whose replacement is as
    wide as the span. *)
Definition fits (n : nat) (fit : nat -> text) (sp : span) : Prop :=
  fst sp <= snd sp <= n /\ List.length (fit (width sp)) = width sp.

(** The invariant of the replacement loop over text [t], for the spans
    [kept] so far: lengths are kept, the occupancy list marks the kept
    spans, the text is untouched outside them and carries the fitted
    label inside. *)
Definition loop_inv (t : text) (fit : nat -> text)
           (kept : list span) (st : rstate) : Prop :=
  List.length (fst st) = List.length t /\
  occupancy_of (List.length t) kept (snd st) /\
  (forall i, (forall sp, In sp kept -> ~ covers sp i) ->
             nth_error (fst st) i = nth_error t i) /\
  (forall sp, In sp kept -> forall j, j < width sp ->
             nth_error (fst st) (fst sp + j) = nth_error (fit (width sp)) j).

Definition span_eqb (a b : span) : bool :=
  (fst a =? fst b) && (snd a =? snd b).

Definition span_eq_dec (a b : span) : {a = b} + {a <> b}.
Proof. decide equality; apply Nat.eq_dec. Defined.

(** Keep the first copy of every span. *)
Fixpoint squash (l : list span) : list span :=
  match l with
  | [] => []
  | x :: l' => x :: filter (fun y => negb (span_eqb x y)) (squash l')
  end.

(** A character table that reads ASCII the way [ascii_tab] does: the
    same categories below 128, and the same answer on whether an ASCII
    code point matches a literal below 256. *)
Definition ascii_like (U : chartab) : Prop :=
  forall c, (c < 128)%N ->
    uni_digit U c = uni_digit ascii_tab c /\
    uni_space U c = uni_space ascii_tab c /\
    uni_word U c = uni_word ascii_tab c /\
    forall a, (a < 256)%N -> ci_eq U a c = ci_eq ascii_tab a c.

Definition ascii_text (t : text) : Prop := Forall (fun c => (c < 128)%N) t.

(** The literals and range ends of the pattern lie below 256. *)
Definition item_latin1 (it : citem) : bool :=
  match it with
  | CLit a => (a <? 256)%N
  | CRange _ hi => (hi <? 256)%N
  | CDigit => true
  | CSpace => true
  end.

Fixpoint latin1 (r : regex) : bool :=
  match r with
  | REps => true
  | RBnd => true
  | RSet cs => forallb item_latin1 cs
  | RRep _ _ cs => forallb item_latin1 cs
  | RCat r1 r2 => latin1 r1 && latin1 r2
  | RAlt r1 r2 => latin1 r1 && latin1 r2
  end.

(* ===================================================================== *)
(** ** The batch layer around the redactor *)
(* ===================================================================== *)

(** Exceptions that escape the functions below. *)
Inductive pyexn : Type :=
| KeyError | IndexError | TypeError | ValueError | ZeroDivisionError.

Inductive result (A : Type) : Type :=
| Ok (a : A)
| Raise (e : pyexn).

Arguments Ok {A} a.
Arguments Raise {A} e.

(** A cell of a text column: a string, or something that is not one
    ([None], a number, ...). *)
Inductive pyval : Type :=
| VStr (s : text)
| VOther.

(** A batch as [datasets] hands it to a mapped function: column names
    with their cells, in order. *)
Definition batch := list (string * list pyval).

(** [examples[col]] *)
Fixpoint dict_get (d : batch) (col : string) : result (list pyval) :=
  match d with
  | [] => Raise KeyError
  | (k, v) :: d' => if String.eqb k col then Ok v else dict_get d' col
  end.

(** [examples[col] = v]: an existing key keeps its place. *)
Fixpoint dict_set (d : batch) (col : string) (v : list pyval) : batch :=
  match d with
  | [] => [(col, v)]
  | (k, w) :: d' =>
    if String.eqb k col then (k, v) :: d' else (k, w) :: dict_set d' col v
  end.

(** [isinstance(t, str) and len(t) <= max_len] *)
Definition is_valid (max_len : Z) (t : pyval) : bool :=
  match t with
  | VStr s => (Z.of_nat (List.length s) <=? max_len)%Z
  | VOther => false
  end.

(** [[t for t, ok in zip(texts, valid_mask) if ok]] *)
Fixpoint valid_of (rows : list (pyval * bool)) : list text :=
  match rows with
  | [] => []
  | (VStr s, true) :: rest => s :: valid_of rest
  | _ :: rest => valid_of rest
  end.

Section Presidio.

(** The Presidio engines are not part of the repository: the analyzer
    (with or without [analyze_batch]) and the anonymizer are
    parameters.  [D] is a recognizer result. *)
Variable D : Type.
Variable has_analyze_batch : bool.
Variable analyze_batch : list text -> text -> list text -> list (list D).
Variable analyze : text -> text -> list text -> list D.
Variable anonymize : text -> list D -> text.

Variable U : chartab.

(** The detection step shared by [process_batch] and
    [_anonymize_batch]. *)
Definition detect (valid_texts : list text) (language : text)
           (entities : list text) : list (list D) :=
  match valid_texts with
  | [] => []
  | _ =>
    if has_analyze_batch
    then analyze_batch valid_texts language entities
    else map (fun t => analyze t language entities) valid_texts
  end.

(** The loop of [process_batch] (src/full_anon.py) over
    [zip(texts, valid_mask)], with [idx] and [new_texts]. *)
Fixpoint process_rows (detections : list (list D))
         (rows : list (pyval * bool)) (idx : nat) (new_texts : list pyval)
  : result (list pyval) :=
  match rows with
  | [] => Ok new_texts
  | (t, ok) :: rest =>
    let after (pii_clean : pyval) (idx' : nat) :=
      match pii_clean with
      | VStr s =>
        match replace_identifiers U s ID_LABEL with
        | Some final_text =>
          process_rows detections rest idx' (new_texts ++ [VStr final_text])
        | None => Raise IndexError
        end
      | VOther => Raise TypeError
      end in
    if ok then
      match nth_error detections idx with
      | Some det =>
        match t with
        | VStr s => after (VStr (anonymize s det)) (S idx)
        | VOther => Raise TypeError
        end
      | None => Raise IndexError
      end
    else after t idx
  end.

Definition process_batch (examples : batch) (col : string)
           (entities : list text) (language : text) (max_len : Z)
  : result batch :=
  match dict_get examples col with
  | Raise e => Raise e
  | Ok texts =>
    let valid_mask := map (is_valid max_len) texts in
    let valid_texts := valid_of (combine texts valid_mask) in
    let detections := detect valid_texts language entities in
    match process_rows detections (combine texts valid_mask) 0 [] with
    | Ok new_texts => Ok (dict_set examples col new_texts)
    | Raise e => Raise e
    end
  end.

(** The loop of [_anonymize_batch] (src/filter_presidio.py): a text
    without detections, and a cell that is not valid, are appended as
    they are. *)
Fixpoint anonymize_rows (results : list (list D))
         (rows : list (pyval * bool)) (idx : nat) (new_texts : list pyval)
  : result (list pyval) :=
  match rows with
  | [] => Ok new_texts
  | (t, ok) :: rest =>
    if ok then
      match nth_error results idx with
      | Some res =>
        match res, t with
        | [], _ => anonymize_rows results rest (S idx) (new_texts ++ [t])
        | _ :: _, VStr s =>
          anonymize_rows results rest (S idx)
                         (new_texts ++ [VStr (anonymize s res)])
        | _ :: _, VOther => Raise TypeError
        end
      | None => Raise IndexError
      end
    else anonymize_rows results rest idx (new_texts ++ [t])
  end.

Definition _anonymize_batch (examples : batch) (col : string)
           (entities : list text) (language : text) (max_len : Z)
  : result batch :=
  match dict_get examples col with
  | Raise e => Raise e
  | Ok texts =>
    let valid_mask := map (is_valid max_len) texts in
    let valid_texts := valid_of (combine texts valid_mask) in
    let results := detect valid_texts language entities in
    match anonymize_rows results (combine texts valid_mask) 0 [] with
    | Ok new_texts => Ok (dict_set examples col new_texts)
    | Raise e => Raise e
    end
  end.

(** The text [process_batch] hands to [replace_identifiers] for a
    string cell, when each valid text meets its own detections. *)
Definition pii_clean_of (language : text) (entities : list text)
           (max_len : Z) (s : text) : text :=
  if (Z.of_nat (List.length s) <=? max_len)%Z
  then anonymize s (analyze s language entities)
  else s.

(** What [_anonymize_batch] puts in place of a cell, when each valid
    text meets its own detections. *)
Definition masked_cell (language : text) (entities : list text)
           (max_len : Z) (t : pyval) : pyval :=
  match t with
  | VStr s =>
    if (Z.of_nat (List.length s) <=? max_len)%Z then
      match analyze s language entities with
      | [] => VStr s
      | det => VStr (anonymize s det)
      end
    else VStr s
  | VOther => VOther
  end.

End Presidio.

Arguments detect {D}.
Arguments process_rows {D}.
Arguments process_batch {D}.
Arguments anonymize_rows {D}.
Arguments _anonymize_batch {D}.
Arguments pii_clean_of {D}.
Arguments masked_cell {D}.

(** The rows of the loops: [zip(texts, valid_mask)]. *)
Definition rows_of (max_len : Z) (texts : list pyval) : list (pyval * bool) :=
  combine texts (map (is_valid max_len) texts).

(** *** Entity lists on the command line *)

(** [s.split(sep)] for a one-character separator. *)
Fixpoint split_on (sep : N) (s : text) : list text :=
  match s with
  | [] => [[]]
  | c :: r =>
    if (c =? sep)%N then [] :: split_on sep r
    else match split_on sep r with
         | p :: ps => (c :: p) :: ps
         | [] => [[c]]
         end
  end.

Fixpoint lstrip (U : chartab) (s : text) : text :=
  match s with
  | c :: r => if uni_space U c then lstrip U r else s
  | [] => []
  end.

Definition rstrip (U : chartab) (s : text) : text :=
  rev (lstrip U (rev s)).

(** [s.strip()]: whitespace is what [str.isspace] says, the category
    behind [\s]. *)
Definition strip (U : chartab) (s : text) : text := rstrip U (lstrip U s).

Definition nonempty (s : text) : bool :=
  match s with [] => false | _ :: _ => true end.

(** [[e.strip() for e in s.split(",") if e.strip()]] (src/full_anon.py,
    src/filter_presidio.py). *)
Definition parse_entities (U : chartab) (s : text) : list text :=
  map (strip U) (filter (fun e => nonempty (strip U e)) (split_on cp_comma s)).

(** [[e.strip() for e in s.split(",")]] (src/dataset_filter_nemo.py). *)
Definition parse_supported_entities (U : chartab) (s : text) : list text :=
  map (strip U) (split_on cp_comma s).

(** [",".join(l)] *)
Fixpoint join (sep : N) (l : list text) : text :=
  match l with
  | [] => []
  | [p] => p
  | p :: ps => p ++ sep :: join sep ps
  end.

(** *** Chunks and batches of the NeMo scripts *)

(** [ceil(len(text_list) / chunk_size)].  The quotient is a float; list
    lengths are far below 2^53, where its ceiling is the exact one. *)
Definition total_chunks (n : nat) (chunk_size : Z) : result Z :=
  if (chunk_size =? 0)%Z then Raise ZeroDivisionError
  else Ok (- ((- Z.of_nat n) / chunk_size))%Z.

(** [range(n)] *)
Definition py_range (n : Z) : list Z := map Z.of_nat (seq 0 (Z.to_nat n)).

(** [[text_list[i * chunk_size:(i + 1) * chunk_size]
      for i in range(total_chunks)]]
    (src/text_filter_nemo.py, src/dataset_filter_nemo.py,
    src/text_filter_nemo_experiments.py).  The offsets are not negative
    in any turn that runs. *)
Definition chunks {A : Type} (text_list : list A) (chunk_size : Z)
  : result (list (list A)) :=
  match total_chunks (List.length text_list) chunk_size with
  | Raise e => Raise e
  | Ok total =>
    Ok (map (fun i => slice text_list
                        (Z.to_nat (i * chunk_size))
                        (Z.to_nat ((i + 1) * chunk_size)))
            (py_range total))
  end.



(** A stand-in for the engines: no [analyze_batch]; one detection, the
    length, for a text that holds an at sign; the anonymizer writes a
    fixed token. *)
Definition toy_analyze (s : text) (_ : text) (_ : list text) : list nat :=
  if existsb (N.eqb 64) s then [List.length s] else [].

Definition toy_anonymize (_ : text) (_ : list nat) : text := str "<EMAIL>".

Definition toy_batch : batch :=
  [("id"%string, [VOther; VOther; VOther]);
   ("texto"%string,
    [VStr (str "a@b.cl"); VStr (str "Mi RUT es 12.345.678-9");
     VStr (str "P123 y un texto largo")])].

Definition toy_batch_none : batch :=
  [("texto"%string, [VStr (str "a@b.cl"); VOther])].

(** *** Digits *)

(** A code point that can stand where a pattern asks for a digit:
    [\d], or what a literal digit matches. *)
Definition digit_like (U : chartab) (c : N) : bool :=
  uni_digit U c || existsb (fun a => ci_eq U a c) (N_range 48 57).

(** A class member that matches digits only. *)
Definition digit_item (it : citem) : bool :=
  match it with
  | CLit a => ((48 <=? a) && (a <=? 57))%N
  | CRange lo hi => ((48 <=? lo) && (hi <=? 57))%N
  | CDigit => true
  | CSpace => false
  end.

(** Every match of the pattern holds a code point taken from a
    digits-only class. *)
Fixpoint needs_digit (r : regex) : bool :=
  match r with
  | REps => false
  | RBnd => false
  | RSet cs => forallb digit_item cs
  | RRep lo _ cs => (1 <=? lo) && forallb digit_item cs
  | RCat r1 r2 => needs_digit r1 || needs_digit r2
  | RAlt r1 r2 => needs_digit r1 && needs_digit r2
  end.

(* ===================================================================== *)
(** ** The matcher against the semantics *)
(* ===================================================================== *)

Section MatcherFacts.

Variable U : chartab.
Variable t : text.

Lemma class_at_lt cs i : class_at U t cs i = true -> i < List.length t.
Proof.
  unfold class_at. destruct (nth_error t i) eqn:E; [|discriminate].
  intros _. apply nth_error_Some. congruence.
Qed.

Lemma at_boundary_le i : at_boundary U t i = true -> i <= List.length t.
Proof.
  unfold at_boundary, word_before, word_at. intros H.
  destruct (Nat.le_gt_cases i (List.length t)) as [|Hgt]; [assumption|].
  destruct i as [|j]; [lia|].
  assert (E1 : nth_error t j = None) by (apply nth_error_None; lia).
  assert (E2 : nth_error t (S j) = None) by (apply nth_error_None; lia).
  rewrite E1, E2 in H. discriminate.
Qed.

Lemma all_class_bound cs n : forall i,
  all_class U t cs i n = true -> n = 0 \/ i + n <= List.length t.
Proof.
  induction n as [|n IH]; intros i H; [now left|right].
  simpl in H. apply andb_true_iff in H as [Hc Hr].
  apply class_at_lt in Hc. destruct (IH _ Hr); lia.
Qed.

(** A match never runs backwards, spans at least [min_width], and ends
    inside the text when it starts inside. *)
Lemma Matches_width r s e : Matches U t r s e -> s + min_width r <= e.
Proof.
  induction 1; simpl; lia.
Qed.

Lemma Matches_end r s e :
  Matches U t r s e -> s <= List.length t -> e <= List.length t.
Proof.
  induction 1; intros Hs; auto.
  - match goal with H : class_at _ _ _ _ = true |- _ =>
      apply class_at_lt in H end. lia.
  - match goal with H : all_class _ _ _ _ _ = true |- _ =>
      apply all_class_bound in H end. lia.
Qed.

(** Soundness of the greedy repetition and of the search. *)
Lemma rep_sound cs hi : forall lo i k e,
  rep U t cs lo hi i k = Some e ->
  exists n, lo <= n /\ n <= hi /\ all_class U t cs i n = true
            /\ k (i + n) = Some e.
Proof.
  induction hi as [|hi IH]; intros lo i k e H; simpl in H.
  - destruct lo; [|discriminate].
    exists 0. rewrite Nat.add_0_r. auto.
  - destruct (class_at U t cs i) eqn:Hc.
    + destruct (rep U t cs (Nat.pred lo) hi (S i) k) as [e'|] eqn:Hr.
      * injection H as <-. apply IH in Hr as (n & Hlo & Hhi & Ha & Hk).
        exists (S n). simpl. rewrite Hc, Ha.
        replace (i + S n) with (S i + n) by lia.
        repeat split; auto; lia.
      * destruct lo; [|discriminate].
        exists 0. rewrite Nat.add_0_r. repeat split; auto; lia.
    + destruct lo; [|discriminate].
      exists 0. rewrite Nat.add_0_r. repeat split; auto; lia.
Qed.

Lemma run_sound r : forall i k e,
  run U t r i k = Some e ->
  exists j, Matches U t r i j /\ k j = Some e.
Proof.
  induction r as [| |cs|lo hi cs|r1 IH1 r2 IH2|r1 IH1 r2 IH2];
    intros i k e H; simpl in H.
  - exists i. split; [constructor|assumption].
  - destruct (at_boundary U t i) eqn:Hb; [|discriminate].
    exists i. split; [now constructor|assumption].
  - destruct (class_at U t cs i) eqn:Hc; [|discriminate].
    exists (S i). split; [now constructor|assumption].
  - apply rep_sound in H as (n & Hlo & Hhi & Ha & Hk).
    exists (i + n). split; [now constructor|assumption].
  - apply IH1 in H as (j & Hm1 & H).
    apply IH2 in H as (j' & Hm2 & H).
    exists j'. split; [econstructor; eassumption|assumption].
  - destruct (run U t r1 i k) eqn:H1.
    + injection H as <-. apply IH1 in H1 as (j & Hm & Hk).
      exists j. split; [now apply M_alt_l|assumption].
    + apply IH2 in H as (j & Hm & Hk).
      exists j. split; [now apply M_alt_r|assumption].
Qed.

Lemma match_at_sound r i e :
  match_at U t r i = Some e -> Matches U t r i e.
Proof.
  unfold match_at. intros H. apply run_sound in H as (j & Hm & Hk).
  now injection Hk as <-.
Qed.

Lemma scan_sound r fuel : forall i s e,
  In (s, e) (scan U t fuel r i) ->
  i <= s /\ s <= List.length t /\ Matches U t r s e.
Proof.
  induction fuel as [|fuel IH]; intros i s e H; simpl in H; [contradiction|].
  destruct (List.length t <? i) eqn:Hlt; [contradiction|].
  apply Nat.ltb_ge in Hlt.
  destruct (match_at U t r i) as [e'|] eqn:Hm.
  - destruct H as [H|H].
    + injection H as <- <-. apply match_at_sound in Hm. auto.
    + apply IH in H as (H1 & H2 & H3).
      apply match_at_sound, Matches_width in Hm.
      repeat split; auto.
      destruct (e' =? i) eqn:He; [apply Nat.eqb_eq in He|]; lia.
  - apply IH in H as (H1 & H2 & H3). repeat split; auto; lia.
Qed.

Lemma finditer_sound r s e :
  In (s, e) (finditer U t r) ->
  Matches U t r s e /\ s <= List.length t.
Proof.
  unfold finditer. intros H. apply scan_sound in H. tauto.
Qed.

(** Completeness: the search finds a match wherever the semantics has
    one. *)
Lemma rep_complete cs hi : forall lo i n k,
  lo <= n -> n <= hi -> all_class U t cs i n = true ->
  k (i + n) <> None ->
  rep U t cs lo hi i k <> None.
Proof.
  induction hi as [|hi IH]; intros lo i n k Hlo Hhi Ha Hk; simpl.
  - assert (n = 0) by lia. subst n. assert (lo = 0) by lia. subst lo.
    now rewrite Nat.add_0_r in Hk.
  - destruct n as [|n].
    + assert (lo = 0) by lia. subst lo. rewrite Nat.add_0_r in Hk.
      destruct (class_at U t cs i); [|assumption].
      destruct (rep U t cs (Nat.pred 0) hi (S i) k); [discriminate|assumption].
    + simpl in Ha. apply andb_true_iff in Ha as [Hc Hr]. rewrite Hc.
      assert (Hrec : rep U t cs (Nat.pred lo) hi (S i) k <> None).
      { apply (IH _ _ n); auto; try lia.
        now replace (S i + n) with (i + S n) by lia. }
      destruct (rep U t cs (Nat.pred lo) hi (S i) k); [discriminate|].
      contradiction.
Qed.

Lemma run_complete r s e :
  Matches U t r s e ->
  forall k, k e <> None -> run U t r s k <> None.
Proof.
  induction 1; intros k Hk; simpl; auto.
  - rewrite H. exact Hk.
  - rewrite H. exact Hk.
  - eapply rep_complete; eauto.
  - specialize (IHMatches k Hk).
    destruct (run U t r1 i k); [discriminate|contradiction].
  - destruct (run U t r1 i k); [discriminate|auto].
Qed.

Lemma scan_complete r fuel : forall i s e,
  Matches U t r s e -> i <= s -> s <= List.length t ->
  List.length t < i + fuel ->
  scan U t fuel r i <> [].
Proof.
  induction fuel as [|fuel IH]; intros i s e Hm His Hs Hf; [lia|].
  simpl. destruct (List.length t <? i) eqn:Hlt.
  { apply Nat.ltb_lt in Hlt. lia. }
  destruct (match_at U t r i) eqn:Hma; [discriminate|].
  destruct (Nat.eq_dec i s) as [->|Hne].
  - exfalso. apply (run_complete _ _ _ Hm Some); [discriminate|].
    exact Hma.
  - apply (IH (S i) s e); auto; lia.
Qed.

Lemma finditer_complete r s e :
  Matches U t r s e -> s <= List.length t -> finditer U t r <> [].
Proof.
  intros Hm Hs. unfold finditer.
  apply (scan_complete r _ 0 s e); auto; lia.
Qed.

End MatcherFacts.

(* ===================================================================== *)
(** ** The candidate order *)
(* ===================================================================== *)

Lemma span_leb_total x y : span_leb x y = false -> span_leb y x = true.
Proof.
  unfold span_leb, key_leb, sort_key. simpl.
  rewrite orb_false_iff, andb_false_iff, orb_true_iff, andb_true_iff.
  rewrite !Z.ltb_ge, !Z.ltb_lt, !Z.eqb_eq, !Z.eqb_neq, !Z.leb_le, !Z.leb_gt.
  lia.
Qed.

Lemma span_leb_trans x y z :
  span_leb x y = true -> span_leb y z = true -> span_leb x z = true.
Proof.
  unfold span_leb, key_leb, sort_key. simpl.
  rewrite !orb_true_iff, !andb_true_iff.
  rewrite !Z.ltb_lt, !Z.eqb_eq, !Z.leb_le.
  lia.
Qed.

(** The key determines the span, so the order is antisymmetric. *)
Lemma span_leb_antisym x y :
  span_leb x y = true -> span_leb y x = true -> x = y.
Proof.
  destruct x as [xs xe], y as [ys ye].
  unfold span_leb, key_leb, sort_key. simpl.
  rewrite !orb_true_iff, !andb_true_iff.
  rewrite !Z.ltb_lt, !Z.eqb_eq, !Z.leb_le.
  intros H1 H2. f_equal; lia.
Qed.

Lemma span_leb_refl x : span_leb x x = true.
Proof.
  unfold span_leb, key_leb. rewrite Z.eqb_refl, Z.leb_refl.
  apply orb_true_r.
Qed.

(** On spans that do not run backwards the key order is the order of
    the specification. *)
Lemma span_leb_before x y :
  fst x <= snd x -> fst y <= snd y ->
  (span_leb x y = true <-> before x y).
Proof.
  destruct x as [xs xe], y as [ys ye].
  unfold span_leb, key_leb, sort_key, before, width. simpl.
  rewrite !orb_true_iff, !andb_true_iff.
  rewrite !Z.ltb_lt, !Z.eqb_eq, !Z.leb_le.
  lia.
Qed.

Lemma insert_span_perm x l : Permutation (x :: l) (insert_span x l).
Proof.
  induction l as [|y l IH]; simpl; [reflexivity|].
  destruct (span_leb x y); [reflexivity|].
  rewrite perm_swap. now apply perm_skip.
Qed.

Lemma sort_spans_perm l : Permutation l (sort_spans l).
Proof.
  induction l as [|x l IH]; simpl; [constructor|].
  rewrite <- insert_span_perm. now apply perm_skip.
Qed.

Lemma insert_span_sorted x l : sorted_spans l -> sorted_spans (insert_span x l).
Proof.
  unfold sorted_spans.
  induction l as [|y l IH]; intros Hs; simpl.
  - repeat constructor.
  - inversion Hs as [|? ? Hl Hy]; subst.
    destruct (span_leb x y) eqn:E.
    + constructor; [assumption|]. constructor; [assumption|].
      eapply Forall_impl; [|exact Hy].
      intros z Hz. eapply span_leb_trans; eassumption.
    + constructor; [now apply IH|].
      apply (Permutation_Forall (insert_span_perm x l)).
      constructor; [now apply span_leb_total|assumption].
Qed.

Lemma sort_spans_sorted l : sorted_spans (sort_spans l).
Proof.
  induction l as [|x l IH]; simpl; [constructor|].
  now apply insert_span_sorted.
Qed.

(** Two sorted lists with the same elements, counted, are equal. *)
Lemma sorted_perm_eq l : forall l',
  sorted_spans l -> sorted_spans l' -> Permutation l l' -> l = l'.
Proof.
  unfold sorted_spans.
  induction l as [|x l IH]; intros l' Hs Hs' Hp.
  - apply Permutation_nil in Hp. now subst.
  - destruct l' as [|y l'].
    { apply Permutation_sym, Permutation_nil in Hp. discriminate. }
    inversion Hs as [|? ? Hl Hx]; subst.
    inversion Hs' as [|? ? Hl' Hy]; subst.
    assert (Exy : x = y).
    { assert (Hin : In x (y :: l'))
        by (apply (Permutation_in _ Hp); now left).
      assert (Hin' : In y (x :: l))
        by (apply (Permutation_in _ (Permutation_sym Hp)); now left).
      destruct Hin as [->|Hin]; [reflexivity|].
      destruct Hin' as [->|Hin']; [reflexivity|].
      rewrite Forall_forall in Hx, Hy.
      apply span_leb_antisym; auto. }
    subst y. f_equal. apply IH; auto.
    eapply Permutation_cons_inv; eassumption.
Qed.

(** The sorted list depends on the candidates as a multiset only. *)
Lemma sort_spans_perm_eq l l' :
  Permutation l l' -> sort_spans l = sort_spans l'.
Proof.
  intros Hp. apply sorted_perm_eq; try apply sort_spans_sorted.
  rewrite <- (sort_spans_perm l), <- (sort_spans_perm l'). exact Hp.
Qed.

Lemma sort_spans_in x l : In x (sort_spans l) <-> In x l.
Proof.
  split; apply Permutation_in;
    [apply Permutation_sym|]; apply sort_spans_perm.
Qed.

Lemma sort_spans_nil l : sort_spans l = [] -> l = [].
Proof.
  intros H. apply Permutation_nil. rewrite <- H.
  apply Permutation_sym, sort_spans_perm.
Qed.

(* ===================================================================== *)
(** ** Slices, marks and replacements *)
(* ===================================================================== *)

Lemma ljust_length label w :
  List.length (ljust label w) = Nat.max (List.length label) w.
Proof.
  unfold ljust. rewrite length_app, repeat_length. lia.
Qed.

Lemma fit_trunc_length label w : List.length (fit_trunc label w) = w.
Proof.
  unfold fit_trunc. rewrite length_firstn, ljust_length. lia.
Qed.

Lemma fit_ljust_length label w :
  List.length label <= w -> List.length (fit_ljust label w) = w.
Proof.
  unfold fit_ljust. rewrite ljust_length. lia.
Qed.

(** Once a span is at least as wide as the label nothing is cut off. *)
Lemma fit_trunc_ljust label w :
  List.length label <= w -> fit_trunc label w = fit_ljust label w.
Proof.
  intros H. unfold fit_trunc, fit_ljust.
  apply firstn_all2. rewrite ljust_length. lia.
Qed.

Lemma nth_slice (l : list bool) s e j :
  j < e - s -> nth j (slice l s e) false = nth (s + j) l false.
Proof.
  intros Hj. unfold slice.
  rewrite nth_firstn, nth_skipn.
  now rewrite (proj2 (Nat.ltb_lt _ _) Hj).
Qed.

Lemma any_true_iff bs : any bs = true <-> exists j, nth j bs false = true.
Proof.
  unfold any. rewrite existsb_exists. split.
  - intros (b & Hin & ->). apply (In_nth _ _ false) in Hin as (j & _ & Hj).
    eauto.
  - intros (j & Hj). exists true. split; [|reflexivity].
    rewrite <- Hj. apply nth_In.
    destruct (Nat.lt_ge_cases j (List.length bs)); [assumption|].
    rewrite nth_overflow in Hj by assumption. discriminate.
Qed.

(** The occupancy test: some offset of the span is marked. *)
Lemma any_slice_iff occ s e :
  any (slice occ s e) = true <->
  exists i, s <= i < e /\ nth i occ false = true.
Proof.
  rewrite any_true_iff. split.
  - intros (j & Hj).
    assert (Hlt : j < List.length (slice occ s e)).
    { destruct (Nat.lt_ge_cases j (List.length (slice occ s e)));
        [assumption|].
      rewrite nth_overflow in Hj by assumption. discriminate. }
    unfold slice in Hlt. rewrite length_firstn, length_skipn in Hlt.
    rewrite nth_slice in Hj by lia.
    assert (Hlt' : s + j < List.length occ).
    { destruct (Nat.lt_ge_cases (s + j) (List.length occ)); [assumption|].
      rewrite nth_overflow in Hj by assumption. discriminate. }
    exists (s + j). split; [lia|assumption].
  - intros (i & Hi & Hn).
    assert (Hlt : i < List.length occ).
    { destruct (Nat.lt_ge_cases i (List.length occ)); [assumption|].
      rewrite nth_overflow in Hn by assumption. discriminate. }
    exists (i - s). rewrite nth_slice by lia.
    now replace (s + (i - s)) with i by lia.
Qed.

Lemma set_index_spec (l : list bool) : forall i v l',
  set_index l i v = Some l' ->
  i < List.length l /\ List.length l' = List.length l /\
  forall j, nth j l' false = if j =? i then v else nth j l false.
Proof.
  induction l as [|x l IH]; intros i v l' H; [destruct i; discriminate|].
  destruct i as [|i]; simpl in H.
  - injection H as <-. simpl. repeat split; [lia|].
    intros [|j]; reflexivity.
  - destruct (set_index l i v) as [l1|] eqn:E; [|discriminate].
    injection H as <-. apply IH in E as (H1 & H2 & H3).
    simpl. repeat split; [lia|lia|].
    intros [|j]; [reflexivity|]. apply H3.
Qed.

Lemma set_index_total (l : list bool) : forall i v,
  i < List.length l -> exists l', set_index l i v = Some l'.
Proof.
  induction l as [|x l IH]; intros i v H; simpl in H; [lia|].
  destruct i as [|i]; simpl; [eauto|].
  destruct (IH i v) as (l1 & ->); [lia|]. simpl. eauto.
Qed.

(** What the marking loop leaves behind when it completes. *)
Lemma mark_spec n : forall occ s occ',
  mark occ s n = Some occ' ->
  (n = 0 \/ s + n <= List.length occ) /\
  List.length occ' = List.length occ /\
  forall j, nth j occ' false
            = (nth j occ false || ((s <=? j) && (j <? s + n))).
Proof.
  induction n as [|n IH]; intros occ s occ' H; simpl in H.
  - injection H as <-. repeat split; [now left|].
    intros j. replace (j <? s + 0) with (j <? s) by (f_equal; lia).
    destruct (s <=? j) eqn:E1, (j <? s) eqn:E2;
      rewrite ?orb_false_r; try reflexivity.
    apply Nat.leb_le in E1. apply Nat.ltb_lt in E2. lia.
  - destruct (set_index occ s true) as [occ1|] eqn:E; [|discriminate].
    apply set_index_spec in E as (E1 & E2 & E3).
    apply IH in H as (H1 & H2 & H3).
    repeat split; [right; lia|lia|].
    intros j. rewrite H3, E3.
    destruct (j =? s) eqn:Ej;
      destruct (s <=? j) eqn:L1, (S s <=? j) eqn:L2,
               (j <? s + S n) eqn:L3, (j <? S s + n) eqn:L4;
      repeat match goal with
      | H : (_ =? _) = true |- _ => apply Nat.eqb_eq in H
      | H : (_ =? _) = false |- _ => apply Nat.eqb_neq in H
      | H : (_ <=? _) = true |- _ => apply Nat.leb_le in H
      | H : (_ <=? _) = false |- _ => apply Nat.leb_gt in H
      | H : (_ <? _) = true |- _ => apply Nat.ltb_lt in H
      | H : (_ <? _) = false |- _ => apply Nat.ltb_ge in H
      end; try lia; simpl; rewrite ?orb_true_r, ?orb_false_r; reflexivity.
Qed.

Lemma mark_total n : forall occ s,
  s + n <= List.length occ -> exists occ', mark occ s n = Some occ'.
Proof.
  induction n as [|n IH]; intros occ s H; simpl; [eauto|].
  destruct (set_index_total occ s true) as (occ1 & E); [lia|].
  rewrite E. apply IH.
  apply set_index_spec in E as (_ & E & _). lia.
Qed.

(** Reading a list after a slice assignment that keeps its length. *)
Lemma nth_error_slice_assign (l : text) s e r i :
  s <= e -> e <= List.length l -> List.length r = e - s ->
  nth_error (slice_assign l s e r) i =
  if i <? s then nth_error l i
  else if i <? e then nth_error r (i - s)
  else nth_error l i.
Proof.
  intros Hse He Hr. unfold slice_assign.
  rewrite Nat.max_r by assumption.
  assert (Hlen : List.length (firstn s l) = s)
    by (rewrite length_firstn; lia).
  destruct (i <? s) eqn:E1.
  - apply Nat.ltb_lt in E1.
    rewrite nth_error_app1 by lia.
    now rewrite nth_error_firstn, (proj2 (Nat.ltb_lt _ _) E1).
  - apply Nat.ltb_ge in E1. rewrite nth_error_app2 by lia. rewrite Hlen.
    destruct (i <? e) eqn:E2.
    + apply Nat.ltb_lt in E2. now rewrite nth_error_app1 by lia.
    + apply Nat.ltb_ge in E2. rewrite nth_error_app2 by lia.
      rewrite nth_error_skipn. f_equal. lia.
Qed.

Lemma slice_assign_length (l : text) s e r :
  s <= e -> e <= List.length l ->
  List.length (slice_assign l s e r) = List.length l - (e - s) + List.length r.
Proof.
  intros Hse He. unfold slice_assign.
  rewrite Nat.max_r by assumption.
  rewrite !length_app, length_firstn, length_skipn. lia.
Qed.

(* ===================================================================== *)
(** ** Span geometry *)
(* ===================================================================== *)

Lemma overlaps_iff a b :
  overlaps a b = true <-> exists i, covers a i /\ covers b i.
Proof.
  unfold overlaps, covers. rewrite Nat.ltb_lt. split.
  - intros H. exists (Nat.max (fst a) (fst b)). lia.
  - intros (i & H1 & H2). lia.
Qed.

Lemma overlaps_sym a b : overlaps a b = overlaps b a.
Proof.
  unfold overlaps. now rewrite Nat.max_comm, Nat.min_comm.
Qed.

Lemma overlaps_false_iff a b :
  overlaps a b = false <-> forall i, covers a i -> ~ covers b i.
Proof.
  rewrite <- not_true_iff_false, overlaps_iff. split.
  - intros H i Ha Hb. apply H. eauto.
  - intros H (i & Ha & Hb). exact (H i Ha Hb).
Qed.

Lemma no_overlap_disjoint a b :
  fst a < snd a -> fst b < snd b -> (overlaps a b = false <-> disjoint a b).
Proof.
  unfold overlaps, disjoint. rewrite Nat.ltb_ge. lia.
Qed.

(* ===================================================================== *)
(** ** The occupancy list against the kept spans *)
(* ===================================================================== *)

Lemma occupancy_init n : occupancy_of n [] (repeat false n).
Proof.
  split; [apply repeat_length|].
  intros i. rewrite nth_repeat. split; [discriminate|].
  intros (sp & [] & _).
Qed.

(** The occupancy test is the overlap test against the kept spans. *)
Lemma occupancy_test n kept occ s e :
  occupancy_of n kept occ ->
  any (slice occ s e) = existsb (overlaps (s, e)) kept.
Proof.
  intros [Hlen Hocc]. apply eq_true_iff_eq.
  rewrite any_slice_iff, existsb_exists. split.
  - intros (i & Hi & Hn). apply Hocc in Hn as (sp & Hin & Hc).
    exists sp. split; [assumption|]. apply overlaps_iff.
    exists i. split; [exact Hi|exact Hc].
  - intros (sp & Hin & Ho). apply overlaps_iff in Ho as (i & Hi & Hc).
    exists i. split; [exact Hi|]. apply Hocc. eauto.
Qed.

Lemma occupancy_mark n kept occ s e occ' :
  occupancy_of n kept occ ->
  mark occ s (e - s) = Some occ' ->
  occupancy_of n ((s, e) :: kept) occ'.
Proof.
  intros [Hlen Hocc] Hm. apply mark_spec in Hm as (_ & Hl & Hn).
  split; [congruence|].
  intros i. rewrite Hn, orb_true_iff, andb_true_iff, Nat.leb_le, Nat.ltb_lt.
  rewrite Hocc. unfold covers. split.
  - intros [(sp & Hin & Hc)|Hi].
    + exists sp. split; [now right|assumption].
    + exists (s, e). split; [now left|]. simpl. lia.
  - intros (sp & [<-|Hin] & Hc).
    + right. simpl in Hc. lia.
    + left. eauto.
Qed.

Lemma occupancy_ext n kept kept' occ :
  (forall sp, In sp kept <-> In sp kept') ->
  occupancy_of n kept occ -> occupancy_of n kept' occ.
Proof.
  intros He [Hlen Hocc]. split; [assumption|].
  intros i. rewrite Hocc. split; intros (sp & Hin & Hc);
    exists sp; (split; [now apply He|assumption]).
Qed.

(** The loop's acceptance test refines the selection rule. *)
Lemma accepted_select n spans : forall kept occ,
  occupancy_of n kept occ ->
  Forall (fun sp => snd sp <= n) spans ->
  accepted spans occ = select spans kept.
Proof.
  induction spans as [|[s e] rest IH]; intros kept occ Hocc Hok;
    [reflexivity|].
  inversion Hok as [|? ? He Hrest]; subst. simpl in He. simpl.
  rewrite <- (occupancy_test n kept occ s e Hocc).
  destruct (any (slice occ s e)); [now apply IH|].
  destruct (mark occ s (e - s)) as [occ'|] eqn:Hm.
  - f_equal. apply IH; [|assumption].
    eapply occupancy_mark; eassumption.
  - exfalso. destruct Hocc as [Hlen _].
    destruct (Nat.le_gt_cases s e).
    + destruct (mark_total (e - s) occ s) as (o & Ho); [lia|congruence].
    + replace (e - s) with 0 in Hm by lia. discriminate.
Qed.

(** What the selection rule keeps is pairwise free of overlap, and free
    of overlap with what was kept before. *)
Lemma select_no_overlap spans : forall kept,
  Forall (fun a => Forall (no_overlap a) kept) (select spans kept) /\
  ForallOrdPairs no_overlap (select spans kept).
Proof.
  induction spans as [|sp rest IH]; intros kept; simpl.
  - split; constructor.
  - destruct (existsb (overlaps sp) kept) eqn:E; [apply IH|].
    destruct (IH (sp :: kept)) as [H1 H2]. split.
    + constructor.
      * apply Forall_forall. intros k Hk. unfold no_overlap.
        destruct (overlaps sp k) eqn:Ek; [|reflexivity].
        assert (existsb (overlaps sp) kept = true)
          by (apply existsb_exists; eauto).
        congruence.
      * eapply Forall_impl; [|exact H1].
        intros a Ha. now inversion Ha.
    + constructor; [|assumption].
      eapply Forall_impl; [|exact H1].
      intros a Ha. inversion Ha as [|? ? Hsp _]; subst.
      unfold no_overlap in *. now rewrite overlaps_sym.
Qed.

Lemma select_incl spans : forall kept sp,
  In sp (select spans kept) -> In sp spans.
Proof.
  induction spans as [|x rest IH]; intros kept sp H; simpl in *; [assumption|].
  destruct (existsb (overlaps x) kept).
  - right. eapply IH; eassumption.
  - destruct H as [->|H]; [now left|right]. eapply IH; eassumption.
Qed.

(** A span the rule drops overlaps a span it keeps. *)
Lemma select_dropped spans : forall kept sp,
  In sp spans ->
  In sp (select spans kept) \/
  exists k, (In k kept \/ In k (select spans kept)) /\ overlaps sp k = true.
Proof.
  induction spans as [|x rest IH]; intros kept sp H; simpl in *; [contradiction|].
  destruct (existsb (overlaps x) kept) eqn:E.
  - destruct H as [->|H].
    + right. apply existsb_exists in E as (k & Hk & Ho). eauto.
    + apply IH. assumption.
  - destruct H as [->|H]; [left; now left|].
    destruct (IH (x :: kept) sp H) as [Hin|(k & [[<-|Hk]|Hk] & Ho)].
    + left. now right.
    + right. exists x. split; [right; now left|assumption].
    + right. exists k. split; [now left|assumption].
    + right. exists k. split; [right; now right|assumption].
Qed.

(* ===================================================================== *)
(** ** The replacement loop *)
(* ===================================================================== *)

(** The text the loop returns is the input with the accepted spans
    overwritten one after the other. *)
Lemma loop_rewrite fit spans : forall st st',
  redact_loop fit spans st = Some st' ->
  fst st' = rewrite_spans fit (accepted spans (snd st)) (fst st).
Proof.
  induction spans as [|[s e] rest IH]; intros [chars occ] st' H; simpl in H.
  - now injection H as <-.
  - simpl. destruct (any (slice occ s e)).
    + apply IH in H. exact H.
    + destruct (mark occ s (e - s)) as [occ'|]; [|discriminate].
      apply IH in H. exact H.
Qed.

Section LoopFacts.

Variable t : text.
Variable fit : nat -> text.

Lemma loop_inv_init : loop_inv t fit [] (t, repeat false (List.length t)).
Proof.
  repeat split; simpl; auto using repeat_length.
  - rewrite nth_repeat. discriminate.
  - intros (sp & [] & _).
  - intros sp [].
Qed.

Lemma step_inv kept chars occ s e :
  loop_inv t fit kept (chars, occ) ->
  fits (List.length t) fit (s, e) ->
  any (slice occ s e) = false ->
  exists chars' occ',
    mark occ s (e - s) = Some occ' /\
    redact_step fit (chars, occ) (s, e) = Some (chars', occ') /\
    loop_inv t fit ((s, e) :: kept) (chars', occ').
Proof.
  intros (Hlen & Hocc & Hout & Hin) [[Hse He] Hfit] Hany.
  simpl in Hlen, Hocc, Hout, Hin, Hse, He. unfold width in Hfit.
  simpl in Hfit.
  destruct (mark_total (e - s) occ s) as (occ' & Hm).
  { destruct Hocc as [-> _]. lia. }
  exists (slice_assign chars s e (fit (e - s))), occ'.
  split; [assumption|]. split.
  { unfold redact_step. now rewrite Hany, Hm. }
  assert (Hfree : forall i, s <= i < e -> nth i occ false = false).
  { intros i Hi. apply not_true_iff_false. intros Hn.
    apply not_true_iff_false in Hany. apply Hany.
    apply any_slice_iff. eauto. }
  assert (Hread := fun i =>
    nth_error_slice_assign chars s e (fit (e - s)) i Hse
      ltac:(rewrite Hlen; exact He) Hfit).
  split; [|split; [exact (occupancy_mark _ _ _ _ _ _ Hocc Hm)|split]]; simpl.
  - rewrite slice_assign_length by lia. lia.
  - intros i Hno. rewrite Hread.
    assert (Hns : ~ covers (s, e) i) by (apply Hno; now left).
    unfold covers in Hns. simpl in Hns.
    assert (Hold : nth_error chars i = nth_error t i)
      by (apply Hout; intros sp Hsp; apply Hno; now right).
    destruct (i <? s) eqn:E1; [assumption|].
    destruct (i <? e) eqn:E2; [|assumption].
    apply Nat.ltb_ge in E1. apply Nat.ltb_lt in E2. lia.
  - intros sp [<-|Hsp] j Hj; unfold width in *; simpl in *.
    + rewrite Hread.
      destruct (s + j <? s) eqn:E1; [apply Nat.ltb_lt in E1; lia|].
      destruct (s + j <? e) eqn:E2; [|apply Nat.ltb_ge in E2; lia].
      f_equal. lia.
    + rewrite Hread.
      assert (Hc : nth (fst sp + j) occ false = true).
      { apply (proj2 Hocc). exists sp. split; [assumption|].
        unfold covers. lia. }
      assert (Hnot : ~ (s <= fst sp + j < e)).
      { intros Hi. apply Hfree in Hi. congruence. }
      specialize (Hin sp Hsp j Hj).
      destruct (fst sp + j <? s) eqn:E1; [assumption|].
      destruct (fst sp + j <? e) eqn:E2; [|assumption].
      apply Nat.ltb_ge in E1. apply Nat.ltb_lt in E2. lia.
Qed.

Lemma loop_inv_ext kept kept' st :
  (forall sp, In sp kept <-> In sp kept') ->
  loop_inv t fit kept st -> loop_inv t fit kept' st.
Proof.
  intros He (H1 & H2 & H3 & H4).
  split; [assumption|]. split; [exact (occupancy_ext _ _ _ _ He H2)|].
  split.
  - intros i Hno. apply H3. intros sp Hsp. apply Hno. now apply He.
  - intros sp Hsp. apply H4. now apply He.
Qed.

(** The loop runs to its end on spans that fit, and keeps the
    invariant for the spans it accepts. *)
Lemma loop_total spans : forall kept st,
  loop_inv t fit kept st ->
  Forall (fits (List.length t) fit) spans ->
  exists st', redact_loop fit spans st = Some st' /\
              loop_inv t fit (accepted spans (snd st) ++ kept) st'.
Proof.
  induction spans as [|[s e] rest IH]; intros kept [chars occ] Hinv Hok.
  - exists (chars, occ). split; [reflexivity|assumption].
  - inversion Hok as [|? ? Hsp Hrest]; subst.
    cbn [accepted redact_loop snd].
    destruct (any (slice occ s e)) eqn:Hany.
    + unfold redact_step. rewrite Hany. now apply IH.
    + destruct (step_inv kept chars occ s e Hinv Hsp Hany)
        as (chars' & occ' & Hm & Hstep & Hinv').
      rewrite Hm, Hstep.
      destruct (IH _ _ Hinv' Hrest) as (st' & Hl & Hi).
      exists st'. split; [assumption|].
      eapply loop_inv_ext; [|exact Hi].
      intros sp. simpl. rewrite !in_app_iff. simpl. tauto.
Qed.

End LoopFacts.

(* ===================================================================== *)
(** ** Candidates of a pattern list *)
(* ===================================================================== *)

Lemma PATTERNS_compiled : compile_all RAW_PATTERNS = Some PATTERNS.
Proof. vm_compute. reflexivity. Qed.

Lemma ORDERED_PATTERNS_compiled :
  compile_all ordered_regex_patterns = Some ORDERED_PATTERNS.
Proof. vm_compute. reflexivity. Qed.

(** How two of the sources read once compiled. *)
Example compile_PAS_MEX :
  compile "\bG-\d{8}\b"
  = Some (RCat RBnd (RCat (RSet [CLit 71]) (RCat (RSet [CLit 45])
            (RCat (RRep 8 8 [CDigit]) (RCat RBnd REps))))).
Proof. vm_compute. reflexivity. Qed.

Example compile_CI_VEN :
  compile "\b[VvEe][- ]\d{6,8}\b"
  = Some (RCat RBnd
            (RCat (RSet [CLit 86; CLit 118; CLit 69; CLit 101])
               (RCat (RSet [CLit 45; CLit 32])
                  (RCat (RRep 6 8 [CDigit]) (RCat RBnd REps))))).
Proof. vm_compute. reflexivity. Qed.

Example compile_unbalanced : compile "\b(\d{3}" = None.
Proof. vm_compute. reflexivity. Qed.

Lemma PATTERNS_wide : wide 4 PATTERNS = true.
Proof. vm_compute. reflexivity. Qed.

Lemma ORDERED_PATTERNS_wide : wide 4 ORDERED_PATTERNS = true.
Proof. vm_compute. reflexivity. Qed.

Lemma wide_weaken w w' pats : w' <= w -> wide w pats = true -> wide w' pats = true.
Proof.
  unfold wide. rewrite !forallb_forall. intros Hw H r Hr.
  specialize (H r Hr). apply Nat.leb_le in H. apply Nat.leb_le. lia.
Qed.

Section Candidates.

Variable U : chartab.
Variable t : text.

Lemma collect_sound pats s e :
  In (s, e) (collect U pats t) ->
  exists pat, In pat pats /\ In (s, e) (finditer U t pat) /\
              Matches U t pat s e /\ s <= List.length t.
Proof.
  unfold collect. rewrite in_flat_map. intros (pat & Hp & Hin).
  exists pat. destruct (finditer_sound U t pat s e Hin). auto.
Qed.

Lemma collect_wide w pats sp :
  wide w pats = true -> In sp (collect U pats t) ->
  fst sp + w <= snd sp /\ snd sp <= List.length t.
Proof.
  destruct sp as [s e]. intros Hw Hin.
  apply collect_sound in Hin as (pat & Hp & _ & Hm & Hs).
  unfold wide in Hw. rewrite forallb_forall in Hw.
  specialize (Hw pat Hp). apply Nat.leb_le in Hw.
  pose proof (Matches_width U t pat s e Hm).
  pose proof (Matches_end U t pat s e Hm Hs). simpl. lia.
Qed.

Lemma collect_inside pats sp :
  In sp (collect U pats t) -> fst sp <= snd sp <= List.length t.
Proof.
  intros Hin. destruct (collect_wide 0 pats sp); [|assumption|lia].
  unfold wide. apply forallb_forall. intros. reflexivity.
Qed.

(** No match anywhere means no candidate, and conversely. *)
Lemma collect_nil_iff pats :
  collect U pats t = [] <->
  forall pat s e, In pat pats -> e <= List.length t ->
                  ~ Matches U t pat s e.
Proof.
  split.
  - intros Hnil pat s e Hp He Hm.
    pose proof (Matches_width U t pat s e Hm).
    apply (finditer_complete U t pat s e Hm); [lia|].
    destruct (finditer U t pat) as [|x l] eqn:E; [reflexivity|].
    assert (Hin : In x (collect U pats t)).
    { unfold collect. apply in_flat_map. exists pat.
      split; [assumption|]. rewrite E. now left. }
    rewrite Hnil in Hin. contradiction.
  - intros H. destruct (collect U pats t) as [|[s e] l] eqn:E; [reflexivity|].
    assert (Hin : In (s, e) (collect U pats t)) by (rewrite E; now left).
    pose proof (collect_inside pats (s, e) Hin) as Hb. simpl in Hb.
    apply collect_sound in Hin as (pat & Hp & _ & Hm & _).
    exfalso. apply (H pat s e Hp); [lia|assumption].
Qed.

Lemma collect_fits_trunc pats label :
  Forall (fits (List.length t) (fit_trunc label)) (collect U pats t).
Proof.
  apply Forall_forall. intros sp Hin. split.
  - now apply (collect_inside pats).
  - apply fit_trunc_length.
Qed.

Lemma collect_fits_ljust pats label :
  wide (List.length label) pats = true ->
  Forall (fits (List.length t) (fit_ljust label)) (collect U pats t).
Proof.
  intros Hw. apply Forall_forall. intros sp Hin.
  destruct (collect_wide _ pats sp Hw Hin). split.
  - lia.
  - apply fit_ljust_length. unfold width. lia.
Qed.

End Candidates.

Lemma collect_perm U pats pats' t :
  Permutation pats pats' ->
  Permutation (collect U pats t) (collect U pats' t).
Proof.
  unfold collect. induction 1; simpl.
  - constructor.
  - now apply Permutation_app_head.
  - rewrite !app_assoc. apply Permutation_app_tail, Permutation_app_comm.
  - etransitivity; eassumption.
Qed.

(* ===================================================================== *)
(** ** Steps 2 to 5 on a candidate list *)
(* ===================================================================== *)

Lemma accepted_of_select cands n :
  Forall (fun sp => snd sp <= n) cands ->
  accepted_of cands n = select (sort_spans cands) [].
Proof.
  intros H. unfold accepted_of.
  apply (accepted_select n); [apply occupancy_init|].
  apply Forall_forall. intros sp Hin. rewrite Forall_forall in H.
  apply H. now apply sort_spans_in.
Qed.

Lemma accepted_of_incl cands n sp :
  Forall (fun sp => snd sp <= n) cands ->
  In sp (accepted_of cands n) -> In sp cands.
Proof.
  intros H Hin. rewrite accepted_of_select in Hin by assumption.
  apply select_incl in Hin. now apply sort_spans_in.
Qed.

(** On candidates that fit, the resolver returns a text of the same
    length that differs from the input on the accepted spans only,
    where it carries the fitted label. *)
Lemma resolve_spec fit cands t :
  Forall (fits (List.length t) fit) cands ->
  exists out,
    resolve fit cands t = Some out /\
    out = rewrite_spans fit (accepted_of cands (List.length t)) t /\
    List.length out = List.length t /\
    (forall i, (forall sp, In sp (accepted_of cands (List.length t)) ->
                           ~ covers sp i) ->
               nth_error out i = nth_error t i) /\
    (forall sp, In sp (accepted_of cands (List.length t)) ->
                forall j, j < width sp ->
                nth_error out (fst sp + j) = nth_error (fit (width sp)) j).
Proof.
  intros Hok.
  assert (Hok' : Forall (fits (List.length t) fit) (sort_spans cands)).
  { apply Forall_forall. intros sp Hin. rewrite Forall_forall in Hok.
    apply Hok. now apply sort_spans_in. }
  destruct (loop_total t fit (sort_spans cands) [] _
              (loop_inv_init t fit) Hok') as ([out occ] & Hl & Hinv).
  exists out. unfold resolve. rewrite Hl. split; [reflexivity|].
  split; [exact (loop_rewrite fit _ _ _ Hl)|].
  simpl in Hinv. rewrite app_nil_r in Hinv.
  destruct Hinv as (H1 & _ & H3 & H4). auto.
Qed.

Lemma slice_of_nth_error (out r : text) s e :
  List.length r = e - s ->
  (forall j, j < e - s -> nth_error out (s + j) = nth_error r j) ->
  slice out s e = r.
Proof.
  intros Hr H. apply nth_error_ext. intros j. unfold slice.
  rewrite nth_error_firstn, nth_error_skipn.
  destruct (j <? e - s) eqn:E.
  - apply Nat.ltb_lt in E. now apply H.
  - apply Nat.ltb_ge in E. symmetry. apply nth_error_None. lia.
Qed.

(** Every accepted span of the output holds the fitted label and
    nothing else. *)
Lemma accepted_span_filled fit cands t :
  Forall (fits (List.length t) fit) cands ->
  exists out,
    resolve fit cands t = Some out /\
    forall sp, In sp (accepted_of cands (List.length t)) ->
               slice out (fst sp) (snd sp) = fit (width sp).
Proof.
  intros Hok.
  destruct (resolve_spec fit cands t Hok) as (out & Hr & _ & _ & _ & Hin).
  exists out. split; [assumption|]. intros sp Hsp.
  assert (Hf : fits (List.length t) fit sp).
  { rewrite Forall_forall in Hok. apply Hok.
    apply (accepted_of_incl cands (List.length t)); [|assumption].
    apply Forall_forall. intros a Ha. destruct (Hok a Ha) as [Hb _]. lia. }
  destruct Hf as [_ Hlen].
  apply slice_of_nth_error; [exact Hlen|]. apply (Hin sp Hsp).
Qed.

Lemma resolve_perm fit cands cands' t :
  Permutation cands cands' -> resolve fit cands t = resolve fit cands' t.
Proof.
  intros Hp. unfold resolve. now rewrite (sort_spans_perm_eq _ _ Hp).
Qed.

(** Both redactors are the resolver run on the collected candidates;
    the early return of [replace_identifiers] is what the loop yields on
    an empty list. *)
Lemma replace_identifiers_with_resolve U pats t label :
  replace_identifiers_with U pats t label
  = resolve (fit_ljust label) (collect U pats t) t.
Proof.
  unfold replace_identifiers_with, resolve.
  destruct (collect U pats t); reflexivity.
Qed.

Lemma reemplazar_identificadores_with_resolve U pats t :
  reemplazar_identificadores_with U pats t
  = resolve (fit_trunc ID_LABEL) (collect U pats t) t.
Proof. reflexivity. Qed.

Lemma sorted_before l :
  Forall (fun sp => fst sp <= snd sp) l ->
  StronglySorted before (sort_spans l).
Proof.
  intros Hok.
  assert (Hok' : Forall (fun sp => fst sp <= snd sp) (sort_spans l)).
  { apply Forall_forall. intros sp Hin. rewrite Forall_forall in Hok.
    apply Hok. now apply sort_spans_in. }
  generalize (sort_spans_sorted l). unfold sorted_spans.
  induction 1 as [|x l' Hs IH Hx]; constructor.
  - apply IH. now inversion Hok'.
  - inversion Hok' as [|? ? Hx' Hl']; subst.
    rewrite Forall_forall in *. intros y Hy.
    apply span_leb_before; auto.
Qed.

Lemma ForallOrdPairs_impl_in {A} (R R' : A -> A -> Prop) l :
  (forall x y, In x l -> In y l -> R x y -> R' x y) ->
  ForallOrdPairs R l -> ForallOrdPairs R' l.
Proof.
  intros H. induction 1 as [|x l Hx Hl IH]; constructor.
  - rewrite Forall_forall in *. intros y Hy.
    apply H; [now left|now right|auto].
  - apply IH. intros a b Ha Hb. apply H; now right.
Qed.

Lemma accepted_of_disjoint cands n :
  Forall (span_ok n) cands ->
  ForallOrdPairs disjoint (accepted_of cands n).
Proof.
  intros Hok.
  assert (Hin : Forall (fun sp => snd sp <= n) cands).
  { eapply Forall_impl; [|exact Hok]. unfold span_ok. intros; lia. }
  pose proof (accepted_of_incl cands n) as Hincl.
  rewrite accepted_of_select in * by assumption.
  apply (ForallOrdPairs_impl_in no_overlap).
  - intros x y Hx Hy Hno. rewrite Forall_forall in Hok.
    apply no_overlap_disjoint; auto;
      [apply (Hok x)|apply (Hok y)]; auto.
  - apply select_no_overlap.
Qed.

(* ===================================================================== *)
(** ** The redactors on their pattern tables *)
(* ===================================================================== *)

Lemma ID_LABEL_length : List.length ID_LABEL = 4.
Proof. reflexivity. Qed.

Lemma PATTERNS_fits U t :
  Forall (fits (List.length t) (fit_ljust ID_LABEL)) (collect U PATTERNS t).
Proof. apply collect_fits_ljust. exact PATTERNS_wide. Qed.

Lemma ORDERED_fits U t :
  Forall (fits (List.length t) (fit_trunc ID_LABEL))
         (collect U ORDERED_PATTERNS t).
Proof. apply collect_fits_trunc. Qed.

Lemma collect_span_ok U pats t :
  wide 1 pats = true -> Forall (span_ok (List.length t)) (collect U pats t).
Proof.
  intros Hw. apply Forall_forall. intros sp Hin.
  destruct (collect_wide U t 1 pats sp Hw Hin). unfold span_ok. lia.
Qed.

Lemma collect_in_range U pats t :
  Forall (fun sp => snd sp <= List.length t) (collect U pats t).
Proof.
  apply Forall_forall. intros sp Hin.
  now destruct (collect_inside U t pats sp Hin).
Qed.

Lemma replace_identifiers_length U t :
  exists out, replace_identifiers U t ID_LABEL = Some out /\
              List.length out = List.length t.
Proof.
  destruct (resolve_spec _ _ t (PATTERNS_fits U t))
    as (out & Hr & _ & Hlen & _).
  exists out. unfold replace_identifiers.
  now rewrite replace_identifiers_with_resolve.
Qed.

Lemma reemplazar_identificadores_length U t :
  exists out, reemplazar_identificadores U t = Some out /\
              List.length out = List.length t.
Proof.
  destruct (resolve_spec _ _ t (ORDERED_fits U t))
    as (out & Hr & _ & Hlen & _).
  exists out. unfold reemplazar_identificadores.
  now rewrite reemplazar_identificadores_with_resolve.
Qed.

(** C1. Length invariance: with the default placeholder both redactors
    return a text of as many code points as the input. *)
Theorem length_invariance (U : chartab) (t : text) :
  (exists out, replace_identifiers U t ID_LABEL = Some out /\
               List.length out = List.length t) /\
  (exists out, reemplazar_identificadores U t = Some out /\
               List.length out = List.length t).
Proof.
  split.
  - apply replace_identifiers_length.
  - apply reemplazar_identificadores_length.
Qed.

(** C2. Selection rule: the candidates are processed longest first,
    leftmost first among equal widths; the loop accepts exactly the spans
    that share no position with a span accepted before ([select]), and
    the returned text is the input with those spans, and no others,
    overwritten. *)
Theorem selection_rule (U : chartab) (t : text) :
  (Permutation (collect U PATTERNS t) (sort_spans (collect U PATTERNS t)) /\
   StronglySorted before (sort_spans (collect U PATTERNS t)) /\
   accepted_of (collect U PATTERNS t) (List.length t)
     = select (sort_spans (collect U PATTERNS t)) [] /\
   replace_identifiers U t ID_LABEL
     = Some (rewrite_spans (fit_ljust ID_LABEL)
               (select (sort_spans (collect U PATTERNS t)) []) t)) /\
  (Permutation (collect U ORDERED_PATTERNS t)
               (sort_spans (collect U ORDERED_PATTERNS t)) /\
   StronglySorted before (sort_spans (collect U ORDERED_PATTERNS t)) /\
   accepted_of (collect U ORDERED_PATTERNS t) (List.length t)
     = select (sort_spans (collect U ORDERED_PATTERNS t)) [] /\
   reemplazar_identificadores U t
     = Some (rewrite_spans (fit_trunc ID_LABEL)
               (select (sort_spans (collect U ORDERED_PATTERNS t)) []) t)).
Proof.
  assert (Hle : forall pats,
    Forall (fun sp => fst sp <= snd sp) (collect U pats t)).
  { intros pats. apply Forall_forall. intros sp Hin.
    now destruct (collect_inside U t pats sp Hin). }
  split; (split; [apply sort_spans_perm|]);
    (split; [apply sorted_before, Hle|]);
    (split; [apply accepted_of_select, collect_in_range|]).
  - destruct (resolve_spec _ _ t (PATTERNS_fits U t)) as (out & Hr & Ho & _).
    unfold replace_identifiers.
    rewrite replace_identifiers_with_resolve, Hr, Ho.
    now rewrite accepted_of_select by apply collect_in_range.
  - destruct (resolve_spec _ _ t (ORDERED_fits U t)) as (out & Hr & Ho & _).
    unfold reemplazar_identificadores.
    rewrite reemplazar_identificadores_with_resolve, Hr, Ho.
    now rewrite accepted_of_select by apply collect_in_range.
Qed.

(** C3. Output decomposition: the spans a call rewrites are pairwise
    disjoint, and at every offset outside them the output carries the
    code point of the input. *)
Theorem output_decomposition (U : chartab) (t : text) :
  (ForallOrdPairs disjoint
     (accepted_of (collect U PATTERNS t) (List.length t)) /\
   exists out,
     replace_identifiers U t ID_LABEL = Some out /\
     out = rewrite_spans (fit_ljust ID_LABEL)
             (accepted_of (collect U PATTERNS t) (List.length t)) t /\
     forall i,
       (forall sp, In sp (accepted_of (collect U PATTERNS t) (List.length t))
                   -> ~ covers sp i) ->
       nth_error out i = nth_error t i) /\
  (ForallOrdPairs disjoint
     (accepted_of (collect U ORDERED_PATTERNS t) (List.length t)) /\
   exists out,
     reemplazar_identificadores U t = Some out /\
     out = rewrite_spans (fit_trunc ID_LABEL)
             (accepted_of (collect U ORDERED_PATTERNS t) (List.length t)) t /\
     forall i,
       (forall sp, In sp (accepted_of (collect U ORDERED_PATTERNS t)
                                      (List.length t))
                   -> ~ covers sp i) ->
       nth_error out i = nth_error t i).
Proof.
  split; split.
  - apply accepted_of_disjoint, collect_span_ok.
    apply (wide_weaken 4); [lia|exact PATTERNS_wide].
  - destruct (resolve_spec _ _ t (PATTERNS_fits U t))
      as (out & Hr & Ho & _ & Hout & _).
    exists out. unfold replace_identifiers.
    rewrite replace_identifiers_with_resolve. auto.
  - apply accepted_of_disjoint, collect_span_ok.
    apply (wide_weaken 4); [lia|exact ORDERED_PATTERNS_wide].
  - destruct (resolve_spec _ _ t (ORDERED_fits U t))
      as (out & Hr & Ho & _ & Hout & _).
    exists out. unfold reemplazar_identificadores.
    rewrite reemplazar_identificadores_with_resolve. auto.
Qed.

(** C7. Identity on no-match: when no pattern of the table matches any
    range of the text, the text comes back unchanged, whatever the
    label; the empty text in particular. *)
Theorem identity_on_no_match (U : chartab) (t label : text) :
  ((forall pat s e, In pat PATTERNS -> e <= List.length t ->
                    ~ Matches U t pat s e) ->
   replace_identifiers U t label = Some t) /\
  ((forall pat s e, In pat ORDERED_PATTERNS -> e <= List.length t ->
                    ~ Matches U t pat s e) ->
   reemplazar_identificadores U t = Some t) /\
  replace_identifiers U [] label = Some [] /\
  reemplazar_identificadores U [] = Some [].
Proof.
  assert (H1 : forall pats x, collect U pats x = [] ->
                 replace_identifiers_with U pats x label = Some x).
  { intros pats x E. unfold replace_identifiers_with. now rewrite E. }
  assert (H2 : forall pats x, collect U pats x = [] ->
                 reemplazar_identificadores_with U pats x = Some x).
  { intros pats x E. unfold reemplazar_identificadores_with. now rewrite E. }
  assert (H3 : forall pats, wide 4 pats = true -> collect U pats [] = []).
  { intros pats Hw. destruct (collect U pats []) as [|sp l] eqn:E;
      [reflexivity|].
    destruct (collect_wide U [] 4 pats sp Hw) as [Ha Hb].
    - rewrite E. now left.
    - simpl in Hb. lia. }
  split; [|split; [|split]].
  - intros H. apply H1. now apply collect_nil_iff.
  - intros H. apply H2. now apply collect_nil_iff.
  - apply H1, H3, PATTERNS_wide.
  - apply H2, H3, ORDERED_PATTERNS_wide.
Qed.

(** C8. Determinism and order independence: the redactors are functions
    of the text; enumerating the same patterns in another order, or
    handing the resolver the same candidates in another order, gives the
    same result. *)
Theorem order_independence (U : chartab) (t label : text)
        (pats pats' : list regex) (fit : nat -> text)
        (cands cands' : list span) :
  Permutation pats pats' ->
  Permutation cands cands' ->
  replace_identifiers_with U pats' t label
    = replace_identifiers_with U pats t label /\
  reemplazar_identificadores_with U pats' t
    = reemplazar_identificadores_with U pats t /\
  resolve fit cands' t = resolve fit cands t.
Proof.
  intros Hp Hc. repeat split.
  - rewrite !replace_identifiers_with_resolve.
    apply resolve_perm, Permutation_sym, collect_perm, Hp.
  - rewrite !reemplazar_identificadores_with_resolve.
    apply resolve_perm, Permutation_sym, collect_perm, Hp.
  - apply resolve_perm, Permutation_sym, Hc.
Qed.

(** C10. Minimum match width: every span a pattern of either table
    yields is at least four code points wide, the length of the default
    placeholder, so the padded placeholder is exactly as wide as the
    span and the redactor that does not truncate keeps the length of
    the text. *)
Theorem minimum_match_width (U : chartab) (t : text) (pat : regex)
        (s e : nat) :
  In pat (PATTERNS ++ ORDERED_PATTERNS) ->
  In (s, e) (finditer U t pat) ->
  s + 4 <= e /\ e <= List.length t /\
  List.length ID_LABEL <= e - s /\
  List.length (ljust ID_LABEL (e - s)) = e - s /\
  exists out, replace_identifiers U t ID_LABEL = Some out /\
              List.length out = List.length t.
Proof.
  intros Hp Hin.
  assert (Hw : wide 4 (PATTERNS ++ ORDERED_PATTERNS) = true)
    by (vm_compute; reflexivity).
  assert (Hc : In (s, e) (collect U (PATTERNS ++ ORDERED_PATTERNS) t)).
  { unfold collect. apply in_flat_map. eauto. }
  destruct (collect_wide U t 4 _ _ Hw Hc) as [Ha Hb]. simpl in Ha, Hb.
  repeat split; try assumption.
  - rewrite ID_LABEL_length. lia.
  - rewrite ljust_length, ID_LABEL_length. lia.
  - apply replace_identifiers_length.
Qed.

Lemma span_eqb_eq a b : span_eqb a b = true <-> a = b.
Proof.
  destruct a, b. unfold span_eqb. simpl.
  rewrite andb_true_iff, !Nat.eqb_eq. split; [intros []|intros [=]]; subst; auto.
Qed.

Lemma replace_identifiers_accepted U t :
  replace_identifiers U t ID_LABEL
  = Some (rewrite_spans (fit_ljust ID_LABEL)
            (accepted_of (collect U PATTERNS t) (List.length t)) t).
Proof.
  destruct (resolve_spec _ _ t (PATTERNS_fits U t)) as (out & Hr & Ho & _).
  unfold replace_identifiers. rewrite replace_identifiers_with_resolve.
  now rewrite Hr, Ho.
Qed.

Lemma reemplazar_identificadores_accepted U t :
  reemplazar_identificadores U t
  = Some (rewrite_spans (fit_trunc ID_LABEL)
            (accepted_of (collect U ORDERED_PATTERNS t) (List.length t)) t).
Proof.
  destruct (resolve_spec _ _ t (ORDERED_fits U t)) as (out & Hr & Ho & _).
  unfold reemplazar_identificadores.
  rewrite reemplazar_identificadores_with_resolve.
  now rewrite Hr, Ho.
Qed.

(* ===================================================================== *)
(** ** Two candidates *)
(* ===================================================================== *)

Lemma sort_pair x y cands :
  cands = [x; y] \/ cands = [y; x] ->
  span_leb x y = true -> sort_spans cands = [x; y].
Proof.
  intros [->| ->] Hxy; simpl.
  - now rewrite Hxy.
  - destruct (span_leb y x) eqn:Hyx; [|reflexivity].
    now rewrite (span_leb_antisym x y Hxy Hyx).
Qed.

Lemma select_pair x y :
  select [x; y] [] = if overlaps y x then [x] else [x; y].
Proof.
  simpl. rewrite orb_false_r. now destruct (overlaps y x).
Qed.

(** C6. Longest-match preference and tie-break, for a text with exactly
    two candidates [x] and [y] (in either order of collection): (a) if
    [x] strictly contains [y], only [x] is redacted; (b) if they are
    equally wide and share no position, both are; (c) if they are
    equally wide and overlap, only the one starting first is. *)
Theorem longest_match_and_tie_break (U : chartab) (t : text) (x y : span) :
  collect U PATTERNS t = [x; y] \/ collect U PATTERNS t = [y; x] ->
  (fst x <= fst y -> snd y <= snd x -> width y < width x ->
   accepted_of (collect U PATTERNS t) (List.length t) = [x] /\
   replace_identifiers U t ID_LABEL
     = Some (rewrite_spans (fit_ljust ID_LABEL) [x] t)) /\
  (width x = width y -> overlaps x y = false -> fst x < fst y ->
   accepted_of (collect U PATTERNS t) (List.length t) = [x; y] /\
   replace_identifiers U t ID_LABEL
     = Some (rewrite_spans (fit_ljust ID_LABEL) [x; y] t)) /\
  (width x = width y -> overlaps x y = true -> fst x <= fst y ->
   accepted_of (collect U PATTERNS t) (List.length t) = [x] /\
   replace_identifiers U t ID_LABEL
     = Some (rewrite_spans (fit_ljust ID_LABEL) [x] t)).
Proof.
  intros Hc.
  assert (Hin : In x (collect U PATTERNS t) /\ In y (collect U PATTERNS t)).
  { destruct Hc as [-> | ->]; simpl; auto. }
  destruct Hin as [Hx Hy].
  apply (collect_wide U t 4 _ _ PATTERNS_wide) in Hx, Hy.
  assert (Hsel : span_leb x y = true ->
            accepted_of (collect U PATTERNS t) (List.length t)
            = if overlaps y x then [x] else [x; y]).
  { intros Hle. rewrite accepted_of_select by apply collect_in_range.
    rewrite (sort_pair x y _ Hc Hle). apply select_pair. }
  rewrite replace_identifiers_accepted.
  split; [|split].
  - intros H1 H2 H3. rewrite Hsel.
    + assert (Ho : overlaps y x = true).
      { unfold overlaps. apply Nat.ltb_lt. unfold width in H3. lia. }
      now rewrite Ho.
    + apply span_leb_before; [lia|lia|]. now left.
  - intros H1 H2 H3. rewrite Hsel.
    + rewrite overlaps_sym in H2. now rewrite H2.
    + apply span_leb_before; [lia|lia|]. right. lia.
  - intros H1 H2 H3. rewrite Hsel.
    + rewrite overlaps_sym in H2. now rewrite H2.
    + apply span_leb_before; [lia|lia|]. right. lia.
Qed.

(* ===================================================================== *)
(** ** Repeated candidates *)
(* ===================================================================== *)

(** A span that overlaps a kept span is dropped wherever it stands, so
    striking it from the list changes nothing. *)
Lemma select_skip_blocked x l : forall kept,
  existsb (overlaps x) kept = true ->
  select (filter (fun y => negb (span_eqb x y)) l) kept = select l kept.
Proof.
  induction l as [|y l IH]; intros kept Hb; [reflexivity|].
  simpl. destruct (span_eqb x y) eqn:E; simpl.
  - apply span_eqb_eq in E. subst y. rewrite Hb. now apply IH.
  - destruct (existsb (overlaps y) kept); [now apply IH|].
    f_equal. apply IH. simpl. rewrite Hb. apply orb_true_r.
Qed.

Lemma overlaps_self x : fst x < snd x -> overlaps x x = true.
Proof. unfold overlaps. intros H. apply Nat.ltb_lt. lia. Qed.

Lemma select_squash l : forall kept,
  Forall (fun sp => fst sp < snd sp) l ->
  select (squash l) kept = select l kept.
Proof.
  induction l as [|x l IH]; intros kept Hne; [reflexivity|].
  inversion Hne as [|? ? Hx Hl]; subst. simpl.
  destruct (existsb (overlaps x) kept) eqn:E.
  - rewrite select_skip_blocked by assumption. now apply IH.
  - f_equal. rewrite select_skip_blocked.
    + now apply IH.
    + simpl. now rewrite overlaps_self.
Qed.

Lemma squash_in l x : In x (squash l) <-> In x l.
Proof.
  induction l as [|y l IH]; simpl; [tauto|].
  rewrite filter_In, IH, negb_true_iff.
  destruct (span_eqb y x) eqn:E.
  - apply span_eqb_eq in E. subst. split; auto.
  - split; [tauto|]. intros [->|H]; auto.
Qed.

Lemma squash_nodup l : NoDup (squash l).
Proof.
  induction l as [|x l IH]; simpl; constructor.
  - rewrite filter_In, negb_true_iff. intros [_ H].
    assert (span_eqb x x = true) by now apply span_eqb_eq.
    congruence.
  - now apply NoDup_filter.
Qed.

Lemma filter_sorted f l : sorted_spans l -> sorted_spans (filter f l).
Proof.
  unfold sorted_spans. induction 1 as [|x l Hs IH Hx]; simpl; [constructor|].
  destruct (f x); [|assumption]. constructor; [assumption|].
  rewrite Forall_forall in *. intros y Hy. apply Hx.
  now apply filter_In in Hy.
Qed.

Lemma squash_sorted l : sorted_spans l -> sorted_spans (squash l).
Proof.
  unfold sorted_spans. induction 1 as [|x l Hs IH Hx]; simpl; constructor.
  - now apply filter_sorted.
  - rewrite Forall_forall in *. intros y Hy.
    apply filter_In in Hy as [Hy _]. apply Hx. now apply squash_in.
Qed.

(** Candidate lists with the same spans, however often each, select the
    same spans. *)
Lemma select_sort_ext c1 c2 :
  (forall x, In x c1 <-> In x c2) ->
  Forall (fun sp => fst sp < snd sp) c1 ->
  select (sort_spans c1) [] = select (sort_spans c2) [].
Proof.
  intros Hset Hne.
  assert (Hne1 : Forall (fun sp => fst sp < snd sp) (sort_spans c1)).
  { rewrite Forall_forall in *. intros x Hx. apply Hne.
    now apply sort_spans_in. }
  assert (Hne2 : Forall (fun sp => fst sp < snd sp) (sort_spans c2)).
  { rewrite Forall_forall in *. intros x Hx. apply Hne, Hset.
    now apply sort_spans_in. }
  rewrite <- (select_squash _ _ Hne1), <- (select_squash _ _ Hne2).
  f_equal. apply sorted_perm_eq; try apply squash_sorted, sort_spans_sorted.
  apply NoDup_Permutation; try apply squash_nodup.
  intros x. now rewrite !squash_in, !sort_spans_in.
Qed.

Lemma resolve_set_ext fit c1 c2 t :
  (forall x, In x c1 <-> In x c2) ->
  Forall (fun sp => fst sp < snd sp) c1 ->
  Forall (fits (List.length t) fit) c1 ->
  resolve fit c1 t = resolve fit c2 t.
Proof.
  intros Hset Hne Hf1.
  assert (Hf2 : Forall (fits (List.length t) fit) c2).
  { rewrite Forall_forall in *. intros x Hx. now apply Hf1, Hset. }
  assert (Hin : forall c, Forall (fits (List.length t) fit) c ->
                  Forall (fun sp => snd sp <= List.length t) c).
  { intros c Hc. eapply Forall_impl; [|exact Hc].
    intros a [Ha _]. lia. }
  destruct (resolve_spec fit c1 t Hf1) as (o1 & -> & -> & _).
  destruct (resolve_spec fit c2 t Hf2) as (o2 & -> & -> & _).
  rewrite !accepted_of_select by auto.
  now rewrite (select_sort_ext c1 c2).
Qed.

Lemma accepted_of_nodup cands n :
  Forall (span_ok n) cands -> NoDup (accepted_of cands n).
Proof.
  intros Hok.
  assert (Hne : forall x, In x (accepted_of cands n) -> fst x < snd x).
  { intros x Hx. apply accepted_of_incl in Hx.
    - rewrite Forall_forall in Hok. now apply Hok.
    - eapply Forall_impl; [|exact Hok]. unfold span_ok. intros; lia. }
  pose proof (accepted_of_disjoint cands n Hok) as Hd.
  induction Hd as [|x l Hx Hl IH]; constructor.
  - intros Hin. rewrite Forall_forall in Hx.
    specialize (Hx x Hin). specialize (Hne x (or_introl eq_refl)).
    unfold disjoint in Hx. lia.
  - apply IH. intros y Hy. apply Hne. now right.
Qed.

Lemma accepted_of_dropped cands n sp :
  Forall (fun sp => snd sp <= n) cands ->
  In sp cands ->
  In sp (accepted_of cands n) \/
  exists k, In k (accepted_of cands n) /\ overlaps sp k = true.
Proof.
  intros Hok Hin. rewrite accepted_of_select by assumption.
  apply (sort_spans_in sp) in Hin.
  destruct (select_dropped _ [] sp Hin) as [H|(k & [[]|Hk] & Ho)]; eauto.
Qed.

Lemma collect_tl_same U t x :
  In x (collect U (tl PATTERNS) t) <-> In x (collect U PATTERNS t).
Proof.
  unfold collect. rewrite !in_flat_map.
  split; intros (pat & Hp & Hin); exists pat; (split; [|assumption]).
  - change PATTERNS with (hd REps PATTERNS :: tl PATTERNS). now right.
  - change PATTERNS with (hd REps PATTERNS :: tl PATTERNS) in Hp.
    destruct Hp as [<-|Hp]; [|assumption]. simpl. now left.
Qed.

Lemma collect_ordered_skip U t x :
  In x (collect U (firstn 3 ORDERED_PATTERNS ++ skipn 4 ORDERED_PATTERNS) t)
  <-> In x (collect U ORDERED_PATTERNS t).
Proof.
  unfold collect. rewrite !in_flat_map.
  split; intros (pat & Hp & Hin); exists pat; (split; [|assumption]).
  - rewrite <- (firstn_skipn 3 ORDERED_PATTERNS).
    apply in_app_iff in Hp as [Hp|Hp]; apply in_app_iff; [now left|right].
    change (skipn 3 ORDERED_PATTERNS)
      with (nth 3 ORDERED_PATTERNS REps :: skipn 4 ORDERED_PATTERNS).
    now right.
  - rewrite <- (firstn_skipn 3 ORDERED_PATTERNS) in Hp.
    apply in_app_iff in Hp as [Hp|Hp]; apply in_app_iff; [now left|right].
    change (skipn 3 ORDERED_PATTERNS)
      with (nth 3 ORDERED_PATTERNS REps :: skipn 4 ORDERED_PATTERNS) in Hp.
    destruct Hp as [<-|Hp]; [|assumption]. simpl. now left.
Qed.

(** C9 (as amended). Duplicate-span tolerance.  The accepted spans hold
    no span twice; a candidate that is not accepted, a second copy
    included, overlaps an accepted span; and the output is the output on
    the candidate list with every span listed once, which is also the
    output of the table without the first of the twin patterns. *)
Theorem duplicate_span_tolerance (U : chartab) (t : text) :
  (NoDup (accepted_of (collect U PATTERNS t) (List.length t)) /\
   (forall sp, In sp (collect U PATTERNS t) ->
      In sp (accepted_of (collect U PATTERNS t) (List.length t)) \/
      exists k, In k (accepted_of (collect U PATTERNS t) (List.length t))
                /\ overlaps sp k = true) /\
   resolve (fit_ljust ID_LABEL) (nodup span_eq_dec (collect U PATTERNS t)) t
     = replace_identifiers U t ID_LABEL /\
   replace_identifiers_with U (tl PATTERNS) t ID_LABEL
     = replace_identifiers U t ID_LABEL) /\
  (NoDup (accepted_of (collect U ORDERED_PATTERNS t) (List.length t)) /\
   (forall sp, In sp (collect U ORDERED_PATTERNS t) ->
      In sp (accepted_of (collect U ORDERED_PATTERNS t) (List.length t)) \/
      exists k, In k (accepted_of (collect U ORDERED_PATTERNS t)
                                  (List.length t))
                /\ overlaps sp k = true) /\
   resolve (fit_trunc ID_LABEL)
           (nodup span_eq_dec (collect U ORDERED_PATTERNS t)) t
     = reemplazar_identificadores U t /\
   reemplazar_identificadores_with U
       (firstn 3 ORDERED_PATTERNS ++ skipn 4 ORDERED_PATTERNS) t
     = reemplazar_identificadores U t).
Proof.
  assert (Hne : forall pats, wide 1 pats = true ->
            Forall (fun sp => fst sp < snd sp) (collect U pats t)).
  { intros pats Hw. eapply Forall_impl; [|apply (collect_span_ok U pats t Hw)].
    unfold span_ok. intros; lia. }
  assert (W1 : wide 1 PATTERNS = true)
    by (apply (wide_weaken 4); [lia|exact PATTERNS_wide]).
  assert (W2 : wide 1 ORDERED_PATTERNS = true)
    by (apply (wide_weaken 4); [lia|exact ORDERED_PATTERNS_wide]).
  split; (split; [|split; [|split]]).
  - apply accepted_of_nodup, collect_span_ok, W1.
  - intros sp. apply accepted_of_dropped, collect_in_range.
  - unfold replace_identifiers. rewrite replace_identifiers_with_resolve.
    symmetry. apply resolve_set_ext; [|apply Hne, W1|apply PATTERNS_fits].
    intros x. symmetry. apply nodup_In.
  - unfold replace_identifiers. rewrite !replace_identifiers_with_resolve.
    symmetry. apply resolve_set_ext; [|apply Hne, W1|apply PATTERNS_fits].
    intros x. symmetry. apply collect_tl_same.
  - apply accepted_of_nodup, collect_span_ok, W2.
  - intros sp. apply accepted_of_dropped, collect_in_range.
  - unfold reemplazar_identificadores.
    rewrite reemplazar_identificadores_with_resolve.
    symmetry. apply resolve_set_ext; [|apply Hne, W2|apply ORDERED_fits].
    intros x. symmetry. apply nodup_In.
  - unfold reemplazar_identificadores.
    rewrite !reemplazar_identificadores_with_resolve.
    symmetry. apply resolve_set_ext; [|apply Hne, W2|apply ORDERED_fits].
    intros x. symmetry. apply collect_ordered_skip.
Qed.

(* ===================================================================== *)
(** ** What a match can contain *)
(* ===================================================================== *)

Lemma N_range_in a lo hi : In a (N_range lo hi) -> (lo <= a <= hi)%N.
Proof.
  unfold N_range. rewrite in_map_iff. intros (k & <- & Hk).
  apply in_seq in Hk. lia.
Qed.

Section Symbols.

Variable U : chartab.
Variable x : N.
Hypothesis Hx : plain_symbol U x.

Lemma item_avoids_sound it :
  item_avoids x it = true -> item_match U it x = false.
Proof.
  destruct Hx as (Hd & Hs & Hl).
  destruct it as [a|lo hi| |]; simpl; intros Ha; auto.
  - apply not_true_iff_false. intros Hc. apply Hl in Hc. subst a.
    rewrite N.eqb_refl in Ha. discriminate.
  - apply not_true_iff_false. intros Hc.
    apply existsb_exists in Hc as (a & Hin & Hc).
    apply Hl in Hc. subst a. apply N_range_in in Hin.
    apply negb_true_iff, andb_false_iff in Ha.
    destruct Ha as [Ha|Ha]; apply N.leb_gt in Ha; lia.
Qed.

Lemma class_avoids cs :
  forallb (item_avoids x) cs = true -> in_class U cs x = false.
Proof.
  intros H. apply not_true_iff_false. intros Hc.
  apply existsb_exists in Hc as (it & Hin & Hc).
  rewrite forallb_forall in H.
  rewrite (item_avoids_sound it (H it Hin)) in Hc. discriminate.
Qed.

Variable t : text.

Lemma class_at_avoids cs i :
  forallb (item_avoids x) cs = true ->
  class_at U t cs i = true -> nth_error t i <> Some x.
Proof.
  intros Ha Hc Hn. unfold class_at in Hc. rewrite Hn in Hc.
  rewrite (class_avoids cs Ha) in Hc. discriminate.
Qed.

Lemma all_class_at cs n : forall i j,
  all_class U t cs i n = true -> i <= j < i + n ->
  class_at U t cs j = true.
Proof.
  induction n as [|n IH]; intros i j H Hj; [lia|].
  simpl in H. apply andb_true_iff in H as [H1 H2].
  destruct (Nat.eq_dec j i) as [->|Hne]; [assumption|].
  apply (IH (S i)); [assumption|lia].
Qed.

(** A pattern that does not name a plain symbol matches no range that
    holds it. *)
Lemma Matches_avoids r s e :
  avoids x r = true -> Matches U t r s e ->
  forall i, s <= i < e -> nth_error t i <> Some x.
Proof.
  intros Ha Hm. induction Hm; intros k Hk; simpl in Ha; try lia.
  - assert (k = i) by lia. subst k. now apply (class_at_avoids cs).
  - apply (class_at_avoids cs); [assumption|].
    eapply all_class_at; eassumption.
  - apply andb_true_iff in Ha as [Ha1 Ha2].
    destruct (Nat.lt_ge_cases k j).
    + apply IHHm1; [assumption|lia].
    + apply IHHm2; [assumption|lia].
  - apply andb_true_iff in Ha as [Ha1 Ha2]. now apply IHHm.
  - apply andb_true_iff in Ha as [Ha1 Ha2]. now apply IHHm.
Qed.

End Symbols.

Lemma Matches_starts_bnd U t r s e :
  starts_with_bnd r = true -> Matches U t r s e ->
  at_boundary U t s = true.
Proof.
  destruct r as [| | | |r1 r2|]; try discriminate.
  destruct r1; try discriminate. intros _ Hm.
  inversion Hm as [| | | |? ? ? j ? H1 H2| |]; subst.
  now inversion H1.
Qed.

(* ===================================================================== *)
(** ** The placeholder in the output *)
(* ===================================================================== *)

Lemma ljust_ID_nth w j :
  4 <= w -> j < w ->
  nth_error (ljust ID_LABEL w) j
  = Some (match j with
          | 0 => cp_lt | 1 => 73%N | 2 => 68%N | 3 => cp_gt
          | _ => cp_space
          end).
Proof.
  intros Hw Hj. unfold ljust.
  do 4 (destruct j as [|j]; [reflexivity|]).
  change (S (S (S (S j)))) with (List.length ID_LABEL + j).
  rewrite nth_error_app2 by lia.
  replace (List.length ID_LABEL + j - List.length ID_LABEL) with j by lia.
  apply nth_error_repeat. simpl in *. lia.
Qed.

(** No match found in a text overlaps a range of it that holds the
    padded placeholder. *)
Lemma no_rematch U out pat s e a1 a2 :
  placeholder_inert U ->
  starts_with_bnd pat = true ->
  avoids cp_lt pat = true -> avoids cp_gt pat = true ->
  4 <= min_width pat ->
  Matches U out pat s e ->
  a1 + 4 <= a2 ->
  (forall j, j < a2 - a1 ->
     nth_error out (a1 + j) = nth_error (ljust ID_LABEL (a2 - a1)) j) ->
  overlaps (s, e) (a1, a2) = false.
Proof.
  intros (Hlt & Hgt & Wgt & Wsp) Hb Alt Agt Hw Hm Ha Hout.
  apply not_true_iff_false. intros Ho.
  unfold overlaps in Ho. simpl in Ho. apply Nat.ltb_lt in Ho.
  pose proof (Matches_width U out pat s e Hm) as Hwid.
  assert (Hread : forall j, j < a2 - a1 ->
            nth_error out (a1 + j)
            = Some (match j with
                    | 0 => cp_lt | 1 => 73%N | 2 => 68%N | 3 => cp_gt
                    | _ => cp_space
                    end)).
  { intros j Hj. rewrite Hout by assumption. apply ljust_ID_nth; lia. }
  destruct (Nat.le_gt_cases s a1) as [Hs|Hs].
  - (* the match runs over the opening bracket *)
    apply (Matches_avoids U cp_lt Hlt out pat s e Alt Hm a1); [lia|].
    rewrite <- (Nat.add_0_r a1) at 1. apply (Hread 0). lia.
  - destruct (Nat.le_gt_cases s (a1 + 3)) as [Hs3|Hs3].
    + (* it starts inside the label and runs over the closing bracket *)
      apply (Matches_avoids U cp_gt Hgt out pat s e Agt Hm (a1 + 3)); [lia|].
      apply (Hread 3). lia.
    + (* it starts in the padding, where there is no word boundary *)
      pose proof (Matches_starts_bnd U out pat s e Hb Hm) as Hbnd.
      unfold at_boundary, word_before, word_at in Hbnd.
      destruct s as [|s']; [lia|].
      assert (R1 : nth_error out (S s') = Some cp_space).
      { replace (S s') with (a1 + (S s' - a1)) by lia.
        rewrite Hread by lia.
        destruct (S s' - a1) as [|[|[|[|j]]]] eqn:E; try lia. reflexivity. }
      assert (R0 : nth_error out s' = Some cp_gt
                   \/ nth_error out s' = Some cp_space).
      { replace s' with (a1 + (s' - a1)) by lia.
        rewrite Hread by lia.
        destruct (s' - a1) as [|[|[|[|j]]]] eqn:E; try lia; auto. }
      rewrite R1, Wsp in Hbnd.
      destruct R0 as [R0|R0]; rewrite R0 in Hbnd;
        rewrite ?Wgt, ?Wsp in Hbnd; discriminate.
Qed.

Lemma guarded_in pats pat :
  guarded pats = true -> In pat pats ->
  starts_with_bnd pat = true /\ avoids cp_lt pat = true
  /\ avoids cp_gt pat = true.
Proof.
  unfold guarded. rewrite forallb_forall. intros H Hin.
  specialize (H pat Hin). apply andb_true_iff in H as [H H3].
  apply andb_true_iff in H as [H1 H2]. auto.
Qed.

Lemma PATTERNS_guarded : guarded PATTERNS = true.
Proof. vm_compute. reflexivity. Qed.

Lemma ORDERED_PATTERNS_guarded : guarded ORDERED_PATTERNS = true.
Proof. vm_compute. reflexivity. Qed.

(** A second pass over the output of the resolver: no candidate of the
    second pass overlaps a span accepted in the first, so the second
    pass leaves those spans as they are. *)
Lemma second_pass U pats fit t :
  placeholder_inert U ->
  guarded pats = true -> wide 4 pats = true ->
  (forall w, 4 <= w -> fit w = ljust ID_LABEL w) ->
  exists out out2,
    resolve fit (collect U pats t) t = Some out /\
    resolve fit (collect U pats out) out = Some out2 /\
    (forall a sp,
       In a (accepted_of (collect U pats t) (List.length t)) ->
       In sp (collect U pats out) -> overlaps sp a = false) /\
    (forall a i,
       In a (accepted_of (collect U pats t) (List.length t)) ->
       covers a i -> nth_error out2 i = nth_error out i) /\
    (collect U pats out = [] -> out2 = out).
Proof.
  intros HU Hg Hw Hfit.
  assert (Hfits : forall x,
    Forall (fits (List.length x) fit) (collect U pats x)).
  { intros x. apply Forall_forall. intros sp Hin.
    destruct (collect_wide U x 4 pats sp Hw Hin). split; [lia|].
    unfold width. rewrite Hfit by lia. rewrite ljust_length.
    rewrite ID_LABEL_length. lia. }
  destruct (resolve_spec fit _ t (Hfits t)) as (out & Hr & _ & _ & _ & Hin1).
  destruct (resolve_spec fit _ out (Hfits out))
    as (out2 & Hr2 & Ho2 & _ & Hout2 & _).
  exists out, out2.
  assert (Hfree : forall a sp,
    In a (accepted_of (collect U pats t) (List.length t)) ->
    In sp (collect U pats out) -> overlaps sp a = false).
  { intros [a1 a2] [s e] Ha Hsp.
    assert (Hac : In (a1, a2) (collect U pats t))
      by (eapply accepted_of_incl; [apply collect_in_range|exact Ha]).
    destruct (collect_wide U t 4 pats _ Hw Hac) as [Hwa _]. simpl in Hwa.
    apply collect_sound in Hsp as (pat & Hp & _ & Hm & _).
    destruct (guarded_in pats pat Hg Hp) as (G1 & G2 & G3).
    apply (no_rematch U out pat s e a1 a2); auto.
    - unfold wide in Hw. rewrite forallb_forall in Hw.
      now apply Nat.leb_le, Hw.
    - intros j Hj. specialize (Hin1 (a1, a2) Ha j Hj).
      unfold width in Hin1. simpl in Hin1.
      rewrite Hin1, Hfit by lia. reflexivity. }
  repeat split; auto.
  - intros a i Ha Hc. apply Hout2. intros sp Hsp Hcs.
    assert (Hsp' : In sp (collect U pats out))
      by (eapply accepted_of_incl; [apply collect_in_range|exact Hsp]).
    exact (proj1 (overlaps_false_iff sp a) (Hfree a sp Ha Hsp') i Hcs Hc).
  - intros E. rewrite Ho2. unfold accepted_of. rewrite E. reflexivity.
Qed.

(** C5 (as amended). A second pass never touches what the first pass
    redacted: no pattern of the table matches a range of the redacted
    text that overlaps a span redacted before, every offset of such a
    span reads the same after the second pass, and when the second pass
    finds no candidate at all the text comes back as it is. *)
Theorem placeholders_not_rematched (U : chartab) (t : text) :
  placeholder_inert U ->
  (exists out out2,
     replace_identifiers U t ID_LABEL = Some out /\
     replace_identifiers U out ID_LABEL = Some out2 /\
     (forall a sp,
        In a (accepted_of (collect U PATTERNS t) (List.length t)) ->
        In sp (collect U PATTERNS out) -> overlaps sp a = false) /\
     (forall a i,
        In a (accepted_of (collect U PATTERNS t) (List.length t)) ->
        covers a i -> nth_error out2 i = nth_error out i) /\
     (collect U PATTERNS out = [] -> out2 = out)) /\
  (exists out out2,
     reemplazar_identificadores U t = Some out /\
     reemplazar_identificadores U out = Some out2 /\
     (forall a sp,
        In a (accepted_of (collect U ORDERED_PATTERNS t) (List.length t)) ->
        In sp (collect U ORDERED_PATTERNS out) -> overlaps sp a = false) /\
     (forall a i,
        In a (accepted_of (collect U ORDERED_PATTERNS t) (List.length t)) ->
        covers a i -> nth_error out2 i = nth_error out i) /\
     (collect U ORDERED_PATTERNS out = [] -> out2 = out)).
Proof.
  intros HU. split.
  - destruct (second_pass U PATTERNS (fit_ljust ID_LABEL) t HU
                PATTERNS_guarded PATTERNS_wide)
      as (out & out2 & H1 & H2 & H3); [reflexivity|].
    exists out, out2. unfold replace_identifiers.
    rewrite !replace_identifiers_with_resolve. auto.
  - destruct (second_pass U ORDERED_PATTERNS (fit_trunc ID_LABEL) t HU
                ORDERED_PATTERNS_guarded ORDERED_PATTERNS_wide)
      as (out & out2 & H1 & H2 & H3).
    { intros w Hw. apply fit_trunc_ljust. rewrite ID_LABEL_length. lia. }
    exists out, out2. unfold reemplazar_identificadores.
    rewrite !reemplazar_identificadores_with_resolve. auto.
Qed.

(* ===================================================================== *)
(** ** ASCII texts under any table that reads ASCII alike *)
(* ===================================================================== *)

Section AsciiTransfer.

Variable U : chartab.
Hypothesis HU : ascii_like U.
Variable t : text.
Hypothesis Ht : ascii_text t.

Lemma ascii_nth i c : nth_error t i = Some c -> (c < 128)%N.
Proof.
  intros H. apply nth_error_In in H.
  unfold ascii_text in Ht. rewrite Forall_forall in Ht. auto.
Qed.

Lemma existsb_ext_in {A} (f g : A -> bool) l :
  (forall a, In a l -> f a = g a) -> existsb f l = existsb g l.
Proof.
  induction l as [|a l IH]; intros H; simpl; [reflexivity|].
  rewrite (H a) by now left. f_equal. apply IH. intros; apply H. now right.
Qed.

Lemma N_range_le a lo hi : In a (N_range lo hi) -> (a <= hi)%N.
Proof.
  unfold N_range. rewrite in_map_iff. intros (k & <- & Hk).
  apply in_seq in Hk. lia.
Qed.

Lemma item_match_ascii it c :
  (c < 128)%N -> item_latin1 it = true ->
  item_match U it c = item_match ascii_tab it c.
Proof.
  intros Hc Hi. destruct (HU c Hc) as (Hd & Hs & _ & Hl).
  destruct it as [a|lo hi| |]; cbn [item_match]; auto.
  - apply Hl. now apply N.ltb_lt.
  - cbn [item_latin1] in Hi. apply N.ltb_lt in Hi.
    apply existsb_ext_in. intros a Ha. apply Hl.
    apply N_range_le in Ha. lia.
Qed.

Lemma class_at_ascii cs i :
  forallb item_latin1 cs = true ->
  class_at U t cs i = class_at ascii_tab t cs i.
Proof.
  intros Hcs. unfold class_at.
  destruct (nth_error t i) as [c|] eqn:E; [|reflexivity].
  unfold in_class. apply existsb_ext_in. intros it Hit.
  apply item_match_ascii; [now apply (ascii_nth i)|].
  rewrite forallb_forall in Hcs. auto.
Qed.

Lemma word_at_ascii i : word_at U t i = word_at ascii_tab t i.
Proof.
  unfold word_at. destruct (nth_error t i) as [c|] eqn:E; [|reflexivity].
  now destruct (HU c (ascii_nth i c E)) as (_ & _ & Hw & _).
Qed.

Lemma at_boundary_ascii i : at_boundary U t i = at_boundary ascii_tab t i.
Proof.
  unfold at_boundary, word_before. rewrite word_at_ascii.
  destruct i; [reflexivity|]. now rewrite word_at_ascii.
Qed.

Lemma rep_ascii cs hi : forall lo i k k',
  forallb item_latin1 cs = true ->
  (forall j, k j = k' j) ->
  rep U t cs lo hi i k = rep ascii_tab t cs lo hi i k'.
Proof.
  induction hi as [|hi IH]; intros lo i k k' Hcs Hk; simpl.
  - destruct lo; auto.
  - rewrite (class_at_ascii cs i Hcs), (IH (Nat.pred lo) (S i) k k' Hcs Hk).
    now rewrite Hk.
Qed.

Lemma run_ascii r : forall i k k',
  latin1 r = true ->
  (forall j, k j = k' j) ->
  run U t r i k = run ascii_tab t r i k'.
Proof.
  induction r as [| |cs|lo hi cs|r1 IH1 r2 IH2|r1 IH1 r2 IH2];
    intros i k k' Hr Hk; simpl in *.
  - apply Hk.
  - now rewrite at_boundary_ascii, Hk.
  - now rewrite (class_at_ascii cs i Hr), Hk.
  - now apply rep_ascii.
  - apply andb_true_iff in Hr as [H1 H2].
    apply IH1; [assumption|]. intros j. now apply IH2.
  - apply andb_true_iff in Hr as [H1 H2].
    now rewrite (IH1 i k k' H1 Hk), (IH2 i k k' H2 Hk).
Qed.

Lemma scan_ascii r fuel : forall i,
  latin1 r = true -> scan U t fuel r i = scan ascii_tab t fuel r i.
Proof.
  induction fuel as [|fuel IH]; intros i Hr; simpl; [reflexivity|].
  unfold match_at. rewrite (run_ascii r i Some Some Hr) by reflexivity.
  destruct (List.length t <? i); [reflexivity|].
  destruct (run ascii_tab t r i Some); now rewrite !IH.
Qed.

Lemma collect_ascii pats :
  forallb latin1 pats = true ->
  collect U pats t = collect ascii_tab pats t.
Proof.
  intros Hp. unfold collect. induction pats as [|r pats IH]; [reflexivity|].
  simpl in *. apply andb_true_iff in Hp as [Hr Hp].
  unfold finditer at 1 3. now rewrite (scan_ascii r _ 0 Hr), IH.
Qed.

End AsciiTransfer.

Lemma PATTERNS_latin1 : forallb latin1 PATTERNS = true.
Proof. vm_compute. reflexivity. Qed.

Lemma ORDERED_PATTERNS_latin1 : forallb latin1 ORDERED_PATTERNS = true.
Proof. vm_compute. reflexivity. Qed.

(** On an ASCII text both redactors give what they give under
    [ascii_tab], whatever the table says outside ASCII. *)
Lemma redactors_ascii U t label :
  ascii_like U -> ascii_text t ->
  replace_identifiers U t label = replace_identifiers ascii_tab t label /\
  reemplazar_identificadores U t = reemplazar_identificadores ascii_tab t.
Proof.
  intros HU Ht. unfold replace_identifiers, replace_identifiers_with,
    reemplazar_identificadores, reemplazar_identificadores_with.
  rewrite (collect_ascii U HU t Ht PATTERNS PATTERNS_latin1).
  rewrite (collect_ascii U HU t Ht ORDERED_PATTERNS ORDERED_PATTERNS_latin1).
  split; reflexivity.
Qed.

Lemma ascii_text_str_check t :
  forallb (fun c => (c <? 128)%N) t = true -> ascii_text t.
Proof.
  intros H. apply Forall_forall. intros c Hc.
  rewrite forallb_forall in H. now apply N.ltb_lt, H.
Qed.

(* ===================================================================== *)
(** ** Runs on ASCII texts *)
(* ===================================================================== *)

Local Open Scope string_scope.

Lemma ascii_plain_symbol x :
  (x < 65)%N -> uni_digit ascii_tab x = false ->
  uni_space ascii_tab x = false -> plain_symbol ascii_tab x.
Proof.
  intros Hx Hd Hs. repeat split; try assumption.
  intros a. simpl. unfold ascii_lower.
  destruct ((65 <=? x) && (x <=? 90))%N eqn:Ex.
  { apply andb_true_iff in Ex as [Ex _]. apply N.leb_le in Ex. lia. }
  destruct ((65 <=? a) && (a <=? 90))%N eqn:Ea; rewrite N.eqb_eq.
  - apply andb_true_iff in Ea as [Ea _]. apply N.leb_le in Ea. lia.
  - auto.
Qed.

Lemma ascii_tab_inert : placeholder_inert ascii_tab.
Proof.
  split; [|split; [|split]]; try reflexivity;
    apply ascii_plain_symbol; reflexivity.
Qed.

(** The scenarios of the specification. *)
Example scenario_rut :
  replace_identifiers ascii_tab (str "Mi RUT es 12.345.678-9") ID_LABEL
  = Some (str "Mi RUT es <ID>        ").
Proof. vm_compute. reflexivity. Qed.

Example scenario_price :
  replace_identifiers ascii_tab (str "El precio es 10.000 pesos.") ID_LABEL
  = Some (str "El precio es 10.000 pesos.").
Proof. vm_compute. reflexivity. Qed.

Example scenario_two_ids :
  replace_identifiers ascii_tab
    (str "RUT 12.345.678-9 y CUIT 20-12345678-1") ID_LABEL
  = Some (str "RUT <ID>         y CUIT <ID>         ").
Proof. vm_compute. reflexivity. Qed.

(** C4. Placeholder fitting fails in [replace_identifiers] for a label
    longer than a span: the label is written whole, the text grows, and
    the next span is overwritten at stale offsets.  The truncating
    replacement of [reemplazar_identificadores] fills each span
    exactly. *)
Theorem long_label_not_truncated :
  collect ascii_tab PATTERNS (str "P123 P456") = [(0, 4); (5, 9)] /\
  replace_identifiers ascii_tab (str "P123 P456") (str "<IDENT>")
  = Some (str "<IDEN<IDENT>456") /\
  resolve (fit_trunc (str "<IDENT>")) [(0, 4); (5, 9)] (str "P123 P456")
  = Some (str "<IDE <IDE").
Proof. vm_compute. repeat split. Qed.

(** C5, counterexample: the remainder of a discarded candidate is
    matched on the second pass. *)
Lemma idempotence_counterexample :
  (replace_identifiers ascii_tab (str "123 456 789 01 234 567 8 901 234 5") ID_LABEL
   = Some (str "<ID>           234 567 8 901 234 5") /\
   replace_identifiers ascii_tab (str "<ID>           234 567 8 901 234 5") ID_LABEL
   = Some (str "<ID>           234 567 <ID>       ") /\
   str "<ID>           234 567 <ID>       " <> str "<ID>           234 567 8 901 234 5") /\
  (reemplazar_identificadores ascii_tab (str "1 234 567 8 901 234 5")
   = Some (str "<ID>        901 234 5") /\
   reemplazar_identificadores ascii_tab (str "<ID>        901 234 5")
   = Some (str "<ID>        <ID>     ") /\
   str "<ID>        <ID>     " <> str "<ID>        901 234 5").
Proof. vm_compute. repeat split; discriminate. Qed.

Lemma ascii_tab_ascii_like : ascii_like ascii_tab.
Proof. intros c Hc. repeat split. Qed.

(** The same two passes under every table that reads ASCII like
    [ascii_tab], CPython's among them. *)
Lemma second_pass_redacts_more (U : chartab) :
  ascii_like U ->
  (replace_identifiers U (str "123 456 789 01 234 567 8 901 234 5") ID_LABEL
   = Some (str "<ID>           234 567 8 901 234 5") /\
   replace_identifiers U (str "<ID>           234 567 8 901 234 5") ID_LABEL
   = Some (str "<ID>           234 567 <ID>       ")) /\
  (reemplazar_identificadores U (str "1 234 567 8 901 234 5")
   = Some (str "<ID>        901 234 5") /\
   reemplazar_identificadores U (str "<ID>        901 234 5")
   = Some (str "<ID>        <ID>     ")).
Proof.
  intros HU.
  assert (A : forall x, forallb (fun c => (c <? 128)%N) x = true ->
                replace_identifiers U x ID_LABEL
                = replace_identifiers ascii_tab x ID_LABEL /\
                reemplazar_identificadores U x
                = reemplazar_identificadores ascii_tab x).
  { intros x Hx. apply redactors_ascii; [assumption|].
    now apply ascii_text_str_check. }
  repeat split;
    match goal with
    | |- replace_identifiers U ?x _ = _ => rewrite (proj1 (A x eq_refl))
    | |- reemplazar_identificadores U ?x = _ => rewrite (proj2 (A x eq_refl))
    end; vm_compute; reflexivity.
Qed.

(** C9, counterexample: both copies of a repeated span are discarded
    when a longer span that overlaps it was accepted first. *)
Lemma duplicate_copies_both_discarded :
  collect ascii_tab PATTERNS (str "EC-1234567890-123-456789-1234")
  = [(14, 29); (14, 29); (0, 17)] /\
  accepted_of (collect ascii_tab PATTERNS (str "EC-1234567890-123-456789-1234")) 29
  = [(0, 17)] /\
  ~ In (14, 29)
       (accepted_of
          (collect ascii_tab PATTERNS (str "EC-1234567890-123-456789-1234"))
          29) /\
  replace_identifiers ascii_tab (str "EC-1234567890-123-456789-1234") ID_LABEL
  = Some (str "<ID>             -456789-1234").
Proof. vm_compute. repeat split. intros [H|[]]. discriminate. Qed.

(** The theorems above at concrete texts. *)

Lemma placeholders_not_rematched_witness :
  exists out out2,
    replace_identifiers ascii_tab (str "123 456 789 01 234 567 8 901 234 5") ID_LABEL = Some out /\
    replace_identifiers ascii_tab out ID_LABEL = Some out2 /\
    nth_error out2 0 = nth_error out 0.
Proof.
  destruct (placeholders_not_rematched ascii_tab (str "123 456 789 01 234 567 8 901 234 5") ascii_tab_inert)
    as [(out & out2 & H1 & H2 & _ & H4 & _) _].
  exists out, out2. split; [exact H1|]. split; [exact H2|].
  apply (H4 (0, 14)).
  - vm_compute. left. reflexivity.
  - unfold covers. simpl. lia.
Defined.

Lemma longest_match_and_tie_break_witness :
  replace_identifiers ascii_tab (str "20-12345678-1") ID_LABEL
  = Some (str "<ID>         ") /\
  replace_identifiers ascii_tab (str "V-123456 E-123456") ID_LABEL
  = Some (str "<ID>     <ID>    ") /\
  replace_identifiers ascii_tab (str "123 456 789 01-02-03-12345") ID_LABEL
  = Some (str "<ID>          -02-03-12345").
Proof.
  split; [|split].
  - assert (E : collect ascii_tab PATTERNS (str "20-12345678-1")
                = [(0, 13); (3, 13)] \/
                collect ascii_tab PATTERNS (str "20-12345678-1")
                = [(3, 13); (0, 13)])
      by (right; vm_compute; reflexivity).
    destruct (longest_match_and_tie_break ascii_tab _ _ _ E) as (H & _ & _).
    destruct H as [_ H]; [simpl; lia|simpl; lia|unfold width; simpl; lia|].
    rewrite H. vm_compute. reflexivity.
  - assert (E : collect ascii_tab PATTERNS (str "V-123456 E-123456")
                = [(0, 8); (9, 17)] \/
                collect ascii_tab PATTERNS (str "V-123456 E-123456")
                = [(9, 17); (0, 8)])
      by (left; vm_compute; reflexivity).
    destruct (longest_match_and_tie_break ascii_tab _ _ _ E) as (_ & H & _).
    destruct H as [_ H]; [reflexivity|reflexivity|simpl; lia|].
    rewrite H. vm_compute. reflexivity.
  - assert (E : collect ascii_tab PATTERNS (str "123 456 789 01-02-03-12345")
                = [(0, 14); (12, 26)] \/
                collect ascii_tab PATTERNS (str "123 456 789 01-02-03-12345")
                = [(12, 26); (0, 14)])
      by (left; vm_compute; reflexivity).
    destruct (longest_match_and_tie_break ascii_tab _ _ _ E) as (_ & _ & H).
    destruct H as [_ H]; [reflexivity|reflexivity|simpl; lia|].
    rewrite H. vm_compute. reflexivity.
Defined.

Lemma identity_on_no_match_witness :
  replace_identifiers ascii_tab (str "El precio es 10.000 pesos.") ID_LABEL
  = Some (str "El precio es 10.000 pesos.") /\
  reemplazar_identificadores ascii_tab (str "El precio es 10.000 pesos.")
  = Some (str "El precio es 10.000 pesos.").
Proof.
  destruct (identity_on_no_match ascii_tab
              (str "El precio es 10.000 pesos.") ID_LABEL) as (H1 & H2 & _).
  split; [apply H1|apply H2]; apply collect_nil_iff;
    vm_compute; reflexivity.
Defined.

Lemma order_independence_witness :
  replace_identifiers_with ascii_tab (rev PATTERNS)
      (str "123 456 789 01 234 567 8 901 234 5") ID_LABEL
    = replace_identifiers_with ascii_tab PATTERNS (str "123 456 789 01 234 567 8 901 234 5") ID_LABEL /\
  reemplazar_identificadores_with ascii_tab (rev PATTERNS) (str "123 456 789 01 234 567 8 901 234 5")
    = reemplazar_identificadores_with ascii_tab PATTERNS (str "123 456 789 01 234 567 8 901 234 5") /\
  resolve (fit_ljust ID_LABEL) (rev [(0, 14); (12, 24); (12, 24)])
          (str "123 456 789 01 234 567 8 901 234 5")
    = resolve (fit_ljust ID_LABEL) [(0, 14); (12, 24); (12, 24)]
              (str "123 456 789 01 234 567 8 901 234 5").
Proof.
  apply order_independence; apply Permutation_rev.
Defined.

Lemma minimum_match_width_witness :
  0 + 4 <= 4 /\ 4 <= List.length (str "P123") /\
  List.length ID_LABEL <= 4 - 0 /\
  List.length (ljust ID_LABEL (4 - 0)) = 4 - 0 /\
  exists out, replace_identifiers ascii_tab (str "P123") ID_LABEL = Some out
              /\ List.length out = List.length (str "P123").
Proof.
  apply (minimum_match_width ascii_tab (str "P123") (nth 26 PATTERNS REps)).
  - apply in_or_app. left. apply nth_In. vm_compute. lia.
  - vm_compute. left. reflexivity.
Defined.

Local Close Scope string_scope.

(* ===================================================================== *)
(** ** More on the redactors *)
(* ===================================================================== *)

(** The loop with a replacement that is never narrower than its span:
    it completes on spans inside the text, and the text does not
    shrink. *)
Lemma loop_grows fit n spans : forall chars occ,
  (forall w, w <= List.length (fit w)) ->
  List.length occ = n -> n <= List.length chars ->
  Forall (fun sp => fst sp <= snd sp <= n) spans ->
  exists chars' occ',
    redact_loop fit spans (chars, occ) = Some (chars', occ') /\
    List.length occ' = n /\ n <= List.length chars'.
Proof.
  induction spans as [|[s e] rest IH]; intros chars occ Hfit Ho Hc Hok.
  - exists chars, occ. auto.
  - inversion Hok as [|? ? Hse Hrest]; subst. simpl in Hse.
    simpl. destruct (any (slice occ s e)); [now apply IH|].
    destruct (mark_total (e - s) occ s) as (occ' & Hm); [lia|].
    rewrite Hm. apply IH; auto.
    + apply mark_spec in Hm as (_ & Hl & _). congruence.
    + rewrite slice_assign_length by lia.
      specialize (Hfit (e - s)). lia.
Qed.

(** X1. [replace_identifiers] returns a text for every text and every
    label, never shorter than the input. *)
Theorem replace_identifiers_never_raises (U : chartab) (t label : text) :
  exists out, replace_identifiers U t label = Some out /\
              List.length t <= List.length out.
Proof.
  unfold replace_identifiers. rewrite replace_identifiers_with_resolve.
  unfold resolve.
  destruct (loop_grows (fit_ljust label) (List.length t)
              (sort_spans (collect U PATTERNS t)) t
              (repeat false (List.length t)))
    as (chars' & occ' & Hl & _ & Hlen).
  - intros w. unfold fit_ljust. rewrite ljust_length. lia.
  - apply repeat_length.
  - lia.
  - apply Forall_forall. intros sp Hin. apply (proj1 (sort_spans_in _ _)) in Hin.
    exact (collect_inside U t PATTERNS sp Hin).
  - exists chars'. split; [|assumption].
    unfold rstate, text in *. now rewrite Hl.
Qed.

Lemma collect_P123 U :
  ascii_like U -> collect U PATTERNS [80; 49; 50; 51]%N = [(0, 4)].
Proof.
  intros HU. rewrite (collect_ascii U HU).
  - vm_compute. reflexivity.
  - apply ascii_text_str_check. reflexivity.
  - exact PATTERNS_latin1.
Qed.

(** X2. Which labels keep the length: [replace_identifiers] returns a
    text of the input's length for every input exactly when the label
    has at most four code points. *)
Theorem label_keeps_length_iff (U : chartab) (label : text) :
  ascii_like U ->
  ((forall t, exists out, replace_identifiers U t label = Some out /\
                          List.length out = List.length t)
   <-> List.length label <= 4).
Proof.
  intros HU. split.
  - intros H. destruct (H [80; 49; 50; 51]%N) as (out & Hr & Hlen).
    unfold replace_identifiers, replace_identifiers_with in Hr.
    rewrite (collect_P123 U HU) in Hr. simpl in Hr.
    injection Hr as <-. unfold slice_assign, fit_ljust in Hlen.
    simpl in Hlen. rewrite app_nil_r, ljust_length in Hlen.
    simpl in Hlen. lia.
  - intros Hl t.
    assert (Hw : wide (List.length label) PATTERNS = true)
      by (apply (wide_weaken 4); [assumption|exact PATTERNS_wide]).
    destruct (resolve_spec _ _ t (collect_fits_ljust U t PATTERNS label Hw))
      as (out & Hr & _ & Hlen & _).
    exists out. unfold replace_identifiers.
    now rewrite replace_identifiers_with_resolve.
Qed.

Lemma label_keeps_length_iff_witness :
  exists out,
    replace_identifiers ascii_tab (str "Mi RUT es 12.345.678-9")
                        [cp_lt; 88; cp_gt]%N = Some out /\
    List.length out = List.length (str "Mi RUT es 12.345.678-9").
Proof.
  apply (proj2 (label_keeps_length_iff ascii_tab [cp_lt; 88; cp_gt]%N
                  ascii_tab_ascii_like)).
  simpl. lia.
Defined.

(** The first span in processing order is always accepted. *)
Lemma head_accepted cands n x rest :
  Forall (fun sp => snd sp <= n) cands ->
  sort_spans cands = x :: rest ->
  In x (accepted_of cands n).
Proof.
  intros Hok Hs. rewrite accepted_of_select by assumption.
  rewrite Hs. simpl. now left.
Qed.

Lemma sorted_head_least x rest y :
  sorted_spans (x :: rest) -> In y (x :: rest) -> span_leb x y = true.
Proof.
  intros Hs [<-|Hy]; [apply span_leb_refl|].
  inversion Hs as [|? ? _ Hx]; subst. rewrite Forall_forall in Hx. auto.
Qed.

(** X3. A candidate that comes before every other in the order of the
    specification (a longest one, the leftmost of those) is always
    accepted. *)
Theorem longest_leftmost_accepted (U : chartab) (pats : list regex)
        (t : text) (x : span) :
  In x (collect U pats t) ->
  (forall y, In y (collect U pats t) -> before x y) ->
  In x (accepted_of (collect U pats t) (List.length t)).
Proof.
  intros Hx Hmin.
  destruct (sort_spans (collect U pats t)) as [|h rest] eqn:Hs.
  { apply sort_spans_nil in Hs. rewrite Hs in Hx. contradiction. }
  assert (Hh : In h (collect U pats t))
    by (apply sort_spans_in; rewrite Hs; now left).
  assert (x = h).
  { apply span_leb_antisym.
    - apply span_leb_before; try apply (collect_inside U t pats); auto.
    - apply (sorted_head_least h rest).
      + rewrite <- Hs. apply sort_spans_sorted.
      + rewrite <- Hs. now apply sort_spans_in. }
  subst h. eapply head_accepted; [apply collect_in_range|exact Hs].
Qed.

Lemma longest_leftmost_accepted_witness :
  In (0, 14)
     (accepted_of
        (collect ascii_tab PATTERNS
           (str "123 456 789 01 234 567 8 901 234 5")) 34).
Proof.
  apply (longest_leftmost_accepted ascii_tab PATTERNS
           (str "123 456 789 01 234 567 8 901 234 5") (0, 14)).
  - vm_compute. left. reflexivity.
  - intros y Hy. vm_compute in Hy.
    destruct Hy as [<-|[<-|[<-|[]]]]; unfold before, width; simpl; lia.
Defined.

(** X4. The output equals the input exactly when no pattern matched:
    with a candidate, the first span in processing order is rewritten
    and now opens with the angle bracket, which no match holds. *)
Theorem unchanged_iff_no_candidate (U : chartab) (t : text) :
  plain_symbol U cp_lt ->
  (replace_identifiers U t ID_LABEL = Some t
     <-> collect U PATTERNS t = []) /\
  (reemplazar_identificadores U t = Some t
     <-> collect U ORDERED_PATTERNS t = []).
Proof.
  intros Hlt.
  assert (G : forall pats fit,
    guarded pats = true -> wide 4 pats = true ->
    (forall w, 4 <= w -> fit w = ljust ID_LABEL w) ->
    (resolve fit (collect U pats t) t = Some t <-> collect U pats t = [])).
  { intros pats fit Hg Hw Hfit. split.
    - intros Hr.
      destruct (sort_spans (collect U pats t)) as [|[s e] rest] eqn:Hs;
        [now apply sort_spans_nil|exfalso].
      assert (Hfits : Forall (fits (List.length t) fit) (collect U pats t)).
      { apply Forall_forall. intros sp Hin.
        destruct (collect_wide U t 4 pats sp Hw Hin). split; [lia|].
        unfold width. rewrite Hfit by lia.
        rewrite ljust_length, ID_LABEL_length. lia. }
      destruct (resolve_spec fit _ t Hfits) as (out & Hr' & _ & _ & _ & Hin).
      rewrite Hr in Hr'. injection Hr' as <-.
      assert (Hc : In (s, e) (collect U pats t))
        by (apply sort_spans_in; rewrite Hs; now left).
      destruct (collect_wide U t 4 pats _ Hw Hc) as [Hwd _]. simpl in Hwd.
      specialize (Hin (s, e)
        (head_accepted _ _ _ _ (collect_in_range U pats t) Hs) 0).
      unfold width in Hin. cbn [fst snd] in Hin.
      rewrite Nat.add_0_r in Hin.
      rewrite Hfit in Hin by lia.
      rewrite ljust_ID_nth in Hin by lia.
      apply collect_sound in Hc as (pat & Hp & _ & Hm & _).
      destruct (guarded_in pats pat Hg Hp) as (_ & Ha & _).
      apply (Matches_avoids U cp_lt Hlt t pat s e Ha Hm s); [lia|].
      apply Hin. lia.
    - intros E. rewrite E. reflexivity. }
  split.
  - unfold replace_identifiers. rewrite replace_identifiers_with_resolve.
    apply G; auto using PATTERNS_guarded, PATTERNS_wide.
  - unfold reemplazar_identificadores.
    rewrite reemplazar_identificadores_with_resolve.
    apply G; auto using ORDERED_PATTERNS_guarded, ORDERED_PATTERNS_wide.
    intros w Hw. apply fit_trunc_ljust. rewrite ID_LABEL_length. lia.
Qed.

Lemma unchanged_iff_no_candidate_witness :
  replace_identifiers ascii_tab [80; 49; 50; 51]%N ID_LABEL
  <> Some [80; 49; 50; 51]%N.
Proof.
  destruct (unchanged_iff_no_candidate ascii_tab [80; 49; 50; 51]%N)
    as [[H _] _].
  - apply ascii_tab_inert.
  - intros E. apply H in E. vm_compute in E. discriminate.
Defined.

(** X5. With the default placeholder every accepted span of the output
    reads ["<ID>"] followed by spaces up to the end of the span. *)
Theorem default_placeholder_fills_span (U : chartab) (t : text) :
  (exists out,
     replace_identifiers U t ID_LABEL = Some out /\
     forall sp, In sp (accepted_of (collect U PATTERNS t) (List.length t)) ->
       slice out (fst sp) (snd sp)
       = ID_LABEL ++ repeat cp_space (width sp - 4)) /\
  (exists out,
     reemplazar_identificadores U t = Some out /\
     forall sp,
       In sp (accepted_of (collect U ORDERED_PATTERNS t) (List.length t)) ->
       slice out (fst sp) (snd sp)
       = ID_LABEL ++ repeat cp_space (width sp - 4)).
Proof.
  split.
  - destruct (accepted_span_filled _ _ t (PATTERNS_fits U t))
      as (out & Hr & Hs).
    exists out. unfold replace_identifiers.
    rewrite replace_identifiers_with_resolve. split; [assumption|].
    intros sp Hsp. now rewrite (Hs sp Hsp).
  - destruct (accepted_span_filled _ _ t (ORDERED_fits U t))
      as (out & Hr & Hs).
    exists out. unfold reemplazar_identificadores.
    rewrite reemplazar_identificadores_with_resolve. split; [assumption|].
    intros sp Hsp. rewrite (Hs sp Hsp).
    assert (Hc : In sp (collect U ORDERED_PATTERNS t))
      by (eapply accepted_of_incl; [apply collect_in_range|exact Hsp]).
    destruct (collect_wide U t 4 _ _ ORDERED_PATTERNS_wide Hc).
    rewrite fit_trunc_ljust; [reflexivity|].
    rewrite ID_LABEL_length. unfold width. lia.
Qed.

Lemma redact_loop_ext fit1 fit2 spans : forall st,
  Forall (fun sp => fit1 (snd sp - fst sp) = fit2 (snd sp - fst sp)) spans ->
  redact_loop fit1 spans st = redact_loop fit2 spans st.
Proof.
  induction spans as [|[s e] rest IH]; intros [chars occ] H; [reflexivity|].
  inversion H as [|? ? Hx Hrest]; subst. simpl in Hx. simpl.
  rewrite Hx. destruct (any (slice occ s e)); [now apply IH|].
  destruct (mark occ s (e - s)); [now apply IH|reflexivity].
Qed.

(** X6. On a pattern list whose matches are at least four wide, the
    truncating redactor and [replace_identifiers] with the default
    label return the same. *)
Theorem implementations_agree (U : chartab) (pats : list regex) (t : text) :
  wide 4 pats = true ->
  reemplazar_identificadores_with U pats t
  = replace_identifiers_with U pats t ID_LABEL.
Proof.
  intros Hw. rewrite replace_identifiers_with_resolve.
  rewrite reemplazar_identificadores_with_resolve. unfold resolve.
  rewrite (redact_loop_ext (fit_trunc ID_LABEL) (fit_ljust ID_LABEL));
    [reflexivity|].
  apply Forall_forall. intros sp Hin. apply (proj1 (sort_spans_in _ _)) in Hin.
  destruct (collect_wide U t 4 pats sp Hw Hin).
  apply fit_trunc_ljust. rewrite ID_LABEL_length. lia.
Qed.

Lemma implementations_agree_witness :
  reemplazar_identificadores_with ascii_tab PATTERNS
    (str "Mi RUT es 12.345.678-9")
  = replace_identifiers_with ascii_tab PATTERNS
      (str "Mi RUT es 12.345.678-9") ID_LABEL.
Proof.
  apply implementations_agree. vm_compute. reflexivity.
Defined.

(* ===================================================================== *)
(** ** Texts without digits *)
(* ===================================================================== *)

Section Digits.

Variable U : chartab.
Variable t : text.

Lemma digit_item_like it c :
  digit_item it = true -> item_match U it c = true -> digit_like U c = true.
Proof.
  unfold digit_like. destruct it as [a|lo hi| |];
    cbn [digit_item item_match]; intros Hd Hm; try discriminate.
  - apply orb_true_iff. right. apply existsb_exists. exists a.
    split; [|assumption].
    apply andb_true_iff in Hd as [H1 H2].
    apply N.leb_le in H1, H2. unfold N_range. apply in_map_iff.
    exists (N.to_nat (a - 48)). split; [lia|]. apply in_seq. lia.
  - apply orb_true_iff. right. apply existsb_exists in Hm as (a & Ha & Hm).
    apply existsb_exists. exists a. split; [|assumption].
    apply andb_true_iff in Hd as [H1 H2]. apply N.leb_le in H1, H2.
    pose proof (N_range_in a lo hi Ha).
    unfold N_range. apply in_map_iff.
    exists (N.to_nat (a - 48)). split; [lia|]. apply in_seq. lia.
  - now rewrite Hm.
Qed.

Lemma class_at_digit cs i :
  forallb digit_item cs = true -> class_at U t cs i = true ->
  exists c, nth_error t i = Some c /\ digit_like U c = true.
Proof.
  intros Hcs Hc. unfold class_at in Hc.
  destruct (nth_error t i) as [c|]; [|discriminate].
  exists c. split; [reflexivity|].
  apply existsb_exists in Hc as (it & Hin & Hm).
  rewrite forallb_forall in Hcs. exact (digit_item_like it c (Hcs it Hin) Hm).
Qed.

Lemma Matches_digit r s e :
  needs_digit r = true -> Matches U t r s e ->
  exists c, In c t /\ digit_like U c = true.
Proof.
  intros Hn Hm. induction Hm; cbn [needs_digit] in Hn; try discriminate.
  - destruct (class_at_digit cs i Hn H) as (c & Hc & Hd).
    exists c. split; [eapply nth_error_In; eassumption|assumption].
  - apply andb_true_iff in Hn as [Hlo Hcs]. apply Nat.leb_le in Hlo.
    destruct n as [|n]; [lia|]. simpl in H1.
    apply andb_true_iff in H1 as [Hc _].
    destruct (class_at_digit cs i Hcs Hc) as (c & Hc' & Hd).
    exists c. split; [eapply nth_error_In; eassumption|assumption].
  - apply orb_true_iff in Hn as [Hn|Hn]; auto.
  - apply andb_true_iff in Hn as [Hn _]. auto.
  - apply andb_true_iff in Hn as [_ Hn]. auto.
Qed.

End Digits.

Lemma PATTERNS_need_digit : forallb needs_digit PATTERNS = true.
Proof. vm_compute. reflexivity. Qed.

Lemma ORDERED_PATTERNS_need_digit :
  forallb needs_digit ORDERED_PATTERNS = true.
Proof. vm_compute. reflexivity. Qed.

(** X7. A text without a digit comes back unchanged, whatever the
    label: every pattern of both tables asks for a digit. *)
Theorem digit_free_text_unchanged (U : chartab) (t label : text) :
  (forall c, In c t -> digit_like U c = false) ->
  replace_identifiers U t label = Some t /\
  reemplazar_identificadores U t = Some t.
Proof.
  intros Hfree.
  assert (G : forall pats, forallb needs_digit pats = true ->
                collect U pats t = []).
  { intros pats Hn. apply collect_nil_iff. intros pat s e Hp _ Hm.
    rewrite forallb_forall in Hn.
    destruct (Matches_digit U t pat s e (Hn pat Hp) Hm) as (c & Hc & Hd).
    rewrite (Hfree c Hc) in Hd. discriminate. }
  split.
  - unfold replace_identifiers, replace_identifiers_with.
    now rewrite (G PATTERNS PATTERNS_need_digit).
  - unfold reemplazar_identificadores, reemplazar_identificadores_with.
    now rewrite (G ORDERED_PATTERNS ORDERED_PATTERNS_need_digit).
Qed.

Lemma digit_free_text_unchanged_witness :
  replace_identifiers ascii_tab (str "Esto no tiene nada") ID_LABEL
  = Some (str "Esto no tiene nada") /\
  reemplazar_identificadores ascii_tab (str "Esto no tiene nada")
  = Some (str "Esto no tiene nada").
Proof.
  apply digit_free_text_unchanged.
  intros c Hc. vm_compute in Hc.
  repeat (destruct Hc as [<-|Hc]; [vm_compute; reflexivity|]).
  contradiction.
Defined.

(* ===================================================================== *)
(** ** Batches *)
(* ===================================================================== *)

Lemma dict_get_set_same d col v : dict_get (dict_set d col v) col = Ok v.
Proof.
  induction d as [|[k w] d IH]; simpl.
  - now rewrite String.eqb_refl.
  - destruct (String.eqb k col) eqn:E; simpl; now rewrite E.
Qed.

Lemma dict_get_set_other d col v k :
  k <> col -> dict_get (dict_set d col v) k = dict_get d k.
Proof.
  intros Hne. induction d as [|[k' w] d IH]; simpl.
  - destruct (String.eqb col k) eqn:E; [|reflexivity].
    apply String.eqb_eq in E. congruence.
  - destruct (String.eqb k' col) eqn:E; simpl.
    + apply String.eqb_eq in E. subst k'.
      destruct (String.eqb col k) eqn:E'; [|reflexivity].
      apply String.eqb_eq in E'. congruence.
    + now rewrite IH.
Qed.

Lemma dict_set_keys d col v w :
  dict_get d col = Ok w -> map fst (dict_set d col v) = map fst d.
Proof.
  induction d as [|[k x] d IH]; simpl; [discriminate|].
  destruct (String.eqb k col); simpl; [reflexivity|].
  intros H. now rewrite IH.
Qed.

Lemma combine_mask (f : pyval -> bool) texts :
  combine texts (map f texts) = map (fun t => (t, f t)) texts.
Proof. induction texts; simpl; congruence. Qed.

Lemma skipn_cons_nth {A} (l : list A) : forall idx x r,
  skipn idx l = x :: r -> nth_error l idx = Some x /\ skipn (S idx) l = r.
Proof.
  induction l as [|a l IH]; intros [|idx] x r H; simpl in *;
    try discriminate.
  - now injection H as -> ->.
  - now apply IH.
Qed.

Section PresidioFacts.

Variable D : Type.
Variable has_analyze_batch : bool.
Variable analyze_batch : list text -> text -> list text -> list (list D).
Variable analyze : text -> text -> list text -> list D.
Variable anonymize : text -> list D -> text.
Variable U : chartab.
Variable entities : list text.
Variable language : text.
Variable max_len : Z.

Let rows := rows_of max_len.
Let an (s : text) := analyze s language entities.
Let pii := pii_clean_of analyze anonymize language entities max_len.
Let masked := masked_cell analyze anonymize language entities max_len.

Lemma rows_cons t texts :
  rows (t :: texts) = (t, is_valid max_len t) :: rows texts.
Proof. reflexivity. Qed.

Lemma process_rows_length dets texts : forall idx acc outs,
  process_rows anonymize U dets (rows texts) idx acc = Ok outs ->
  List.length outs = List.length acc + List.length texts.
Proof.
  induction texts as [|t texts IH]; intros idx acc outs H.
  - injection H as <-. simpl. lia.
  - rewrite rows_cons in H. cbn [process_rows] in H.
    assert (Hafter : forall p i,
      match p with
      | VStr s =>
        match replace_identifiers U s ID_LABEL with
        | Some final_text =>
          process_rows anonymize U dets (rows texts) i
                       (acc ++ [VStr final_text])
        | None => Raise IndexError
        end
      | VOther => Raise TypeError
      end = Ok outs ->
      List.length outs = List.length acc + S (List.length texts)).
    { intros [s|] i Hp; [|discriminate].
      destruct (replace_identifiers U s ID_LABEL); [|discriminate].
      apply IH in Hp. rewrite length_app in Hp. simpl in *. lia. }
    destruct (is_valid max_len t).
    + destruct (nth_error dets idx) as [det|]; [|discriminate].
      destruct t as [s|]; [|discriminate].
      exact (Hafter (VStr (anonymize s det)) (S idx) H).
    + exact (Hafter t idx H).
Qed.

Lemma anonymize_rows_length dets texts : forall idx acc outs,
  anonymize_rows anonymize dets (rows texts) idx acc = Ok outs ->
  List.length outs = List.length acc + List.length texts.
Proof.
  induction texts as [|t texts IH]; intros idx acc outs H.
  - injection H as <-. simpl. lia.
  - rewrite rows_cons in H. cbn [anonymize_rows] in H.
    destruct (is_valid max_len t).
    + destruct (nth_error dets idx) as [[|d res]|]; [| |discriminate].
      * apply IH in H. rewrite length_app in H. simpl in *. lia.
      * destruct t as [s|]; [|discriminate].
        apply IH in H. rewrite length_app in H. simpl in *. lia.
    + apply IH in H. rewrite length_app in H. simpl in *. lia.
Qed.

(** X8. Whatever [process_batch] and [_anonymize_batch] return, they
    return the batch with the same columns in the same order, every
    column but [col] as it was, and [col] with as many rows as
    before. *)
Theorem batch_frame (examples r : batch) (col : string) :
  process_batch has_analyze_batch analyze_batch analyze anonymize U
                examples col entities language max_len = Ok r
  \/ _anonymize_batch has_analyze_batch analyze_batch analyze anonymize
                      examples col entities language max_len = Ok r ->
  map fst r = map fst examples /\
  (forall k, k <> col -> dict_get r k = dict_get examples k) /\
  exists texts new_texts,
    dict_get examples col = Ok texts /\
    dict_get r col = Ok new_texts /\
    List.length new_texts = List.length texts.
Proof.
  intros H.
  assert (G : forall texts new_texts,
    dict_get examples col = Ok texts ->
    List.length new_texts = List.length texts ->
    r = dict_set examples col new_texts ->
    map fst r = map fst examples /\
    (forall k, k <> col -> dict_get r k = dict_get examples k) /\
    exists texts new_texts,
      dict_get examples col = Ok texts /\
      dict_get r col = Ok new_texts /\
      List.length new_texts = List.length texts).
  { intros texts new Hget Hlen ->.
    split; [eapply dict_set_keys; eassumption|].
    split; [intros k Hk; now apply dict_get_set_other|].
    exists texts, new. split; [assumption|].
    split; [apply dict_get_set_same|assumption]. }
  destruct H as [H|H].
  - unfold process_batch in H.
    destruct (dict_get examples col) as [texts|] eqn:Hget; [|discriminate].
    fold (rows_of max_len texts) in H. fold rows in H.
    match type of H with
    | match ?p with _ => _ end = _ => destruct p as [new|] eqn:E
    end; [|discriminate].
    injection H as <-. apply (G texts new); auto.
    apply process_rows_length in E. simpl in E. exact E.
  - unfold _anonymize_batch in H.
    destruct (dict_get examples col) as [texts|] eqn:Hget; [|discriminate].
    fold (rows_of max_len texts) in H. fold rows in H.
    match type of H with
    | match ?p with _ => _ end = _ => destruct p as [new|] eqn:E
    end; [|discriminate].
    injection H as <-. apply (G texts new); auto.
    apply anonymize_rows_length in E. simpl in E. exact E.
Qed.

Lemma valid_of_rows_cons_valid s texts :
  is_valid max_len (VStr s) = true ->
  valid_of (rows (VStr s :: texts)) = s :: valid_of (rows texts).
Proof. intros H. rewrite rows_cons. cbn [valid_of]. now rewrite H. Qed.

Lemma valid_of_rows_cons_invalid t texts :
  is_valid max_len t = false ->
  valid_of (rows (t :: texts)) = valid_of (rows texts).
Proof.
  intros H. rewrite rows_cons. cbn [valid_of]. rewrite H. now destruct t.
Qed.

(** The loop of [process_batch] on string cells, each valid text
    meeting its own detections. *)
Lemma process_rows_strings dets texts : forall idx acc,
  Forall (fun t => t <> VOther) texts ->
  skipn idx dets = map an (valid_of (rows texts)) ->
  exists outs,
    process_rows anonymize U dets (rows texts) idx acc = Ok (acc ++ outs) /\
    Forall2 (fun t o => exists s out,
               t = VStr s /\ o = VStr out /\
               replace_identifiers U (pii s) ID_LABEL = Some out)
            texts outs.
Proof.
  induction texts as [|t texts IH]; intros idx acc Hstr Hd.
  - exists []. rewrite app_nil_r. split; [reflexivity|constructor].
  - inversion Hstr as [|? ? Ht Hrest]; subst.
    destruct t as [s|]; [|congruence].
    destruct (replace_identifiers_length U (pii s)) as (out & Hout & _).
    rewrite rows_cons. cbn [process_rows].
    assert (Hpii : pii s = if is_valid max_len (VStr s)
                           then anonymize s (an s) else s) by reflexivity.
    destruct (is_valid max_len (VStr s)) eqn:Hv.
    + rewrite valid_of_rows_cons_valid in Hd by assumption.
      simpl in Hd. apply skipn_cons_nth in Hd as [Hn Hd]. rewrite Hn.
      pose proof Hout as Hout'. rewrite Hpii in Hout'. rewrite Hout'.
      destruct (IH (S idx) (acc ++ [VStr out]) Hrest Hd) as (outs & Hl & Hf).
      exists (VStr out :: outs). rewrite Hl, <- app_assoc.
      split; [reflexivity|]. constructor; [|assumption].
      exists s, out. repeat split. exact Hout.
    + rewrite valid_of_rows_cons_invalid in Hd by assumption.
      pose proof Hout as Hout'. rewrite Hpii in Hout'. rewrite Hout'.
      destruct (IH idx (acc ++ [VStr out]) Hrest Hd) as (outs & Hl & Hf).
      exists (VStr out :: outs). rewrite Hl, <- app_assoc.
      split; [reflexivity|]. constructor; [|assumption].
      exists s, out. repeat split. exact Hout.
Qed.

(** X9. On a column of strings whose detections come one per valid
    text, [process_batch] works row by row and in order: each text goes
    through the anonymizer with its own detections if it is at most
    [max_len] long, then, in either case, through
    [replace_identifiers]. *)
Theorem process_batch_rowwise (examples : batch) (col : string)
        (texts : list pyval) :
  dict_get examples col = Ok texts ->
  Forall (fun t => t <> VOther) texts ->
  detect has_analyze_batch analyze_batch analyze
         (valid_of (rows_of max_len texts)) language entities
    = map (fun s => analyze s language entities)
          (valid_of (rows_of max_len texts)) ->
  exists new_texts,
    process_batch has_analyze_batch analyze_batch analyze anonymize U
                  examples col entities language max_len
      = Ok (dict_set examples col new_texts) /\
    Forall2 (fun t o => exists s out,
               t = VStr s /\ o = VStr out /\
               replace_identifiers U
                 (pii_clean_of analyze anonymize language entities max_len s)
                 ID_LABEL = Some out)
            texts new_texts.
Proof.
  intros Hget Hstr Hdet. unfold process_batch. rewrite Hget.
  fold (rows_of max_len texts). rewrite Hdet.
  destruct (process_rows_strings
              (map an (valid_of (rows texts))) texts 0 []
              Hstr eq_refl) as (outs & Hl & Hf).
  exists outs. fold rows. fold an. now rewrite Hl.
Qed.


Lemma anonymize_rows_spec dets texts : forall idx acc,
  skipn idx dets = map an (valid_of (rows texts)) ->
  anonymize_rows anonymize dets (rows texts) idx acc
  = Ok (acc ++ map masked texts).
Proof.
  induction texts as [|t texts IH]; intros idx acc Hd.
  - simpl. now rewrite app_nil_r.
  - rewrite rows_cons. cbn [anonymize_rows map].
    destruct (is_valid max_len t) eqn:Hv.
    + destruct t as [s|]; [|discriminate].
      rewrite valid_of_rows_cons_valid in Hd by assumption.
      simpl in Hd. apply skipn_cons_nth in Hd as [Hn Hd]. rewrite Hn.
      assert (Hm : masked (VStr s)
                   = match an s with
                     | [] => VStr s
                     | _ :: _ => VStr (anonymize s (an s))
                     end).
      { unfold masked, masked_cell. simpl in Hv. rewrite Hv.
        fold (an s). now destruct (an s). }
      rewrite Hm. destruct (an s) as [|d res] eqn:Ea.
      * rewrite (IH _ _ Hd), <- app_assoc. reflexivity.
      * rewrite (IH _ _ Hd), <- app_assoc. reflexivity.
    + rewrite valid_of_rows_cons_invalid in Hd by assumption.
      rewrite (IH _ _ Hd), <- app_assoc. simpl. do 3 f_equal.
      destruct t as [s|]; [|reflexivity]. simpl in Hv.
      unfold masked, masked_cell. now rewrite Hv.
Qed.

(** X11. [_anonymize_batch] is a row-by-row map that never raises on
    the cells: a string of at most [max_len] code points with
    detections is replaced by its anonymized text; a string without
    detections, a longer string and a cell that is not a string are
    kept as they are. *)
Theorem anonymize_batch_rowwise (examples : batch) (col : string)
        (texts : list pyval) :
  dict_get examples col = Ok texts ->
  detect has_analyze_batch analyze_batch analyze
         (valid_of (rows_of max_len texts)) language entities
    = map (fun s => analyze s language entities)
          (valid_of (rows_of max_len texts)) ->
  _anonymize_batch has_analyze_batch analyze_batch analyze anonymize
                   examples col entities language max_len
    = Ok (dict_set examples col
            (map (masked_cell analyze anonymize language entities max_len)
                 texts)).
Proof.
  intros Hget Hdet. unfold _anonymize_batch. rewrite Hget.
  fold (rows_of max_len texts). rewrite Hdet. fold rows. fold an.
  now rewrite (anonymize_rows_spec _ texts 0 [] eq_refl).
Qed.

End PresidioFacts.

(* ===================================================================== *)
(** ** Chunks *)
(* ===================================================================== *)








(** X13. A [chunk_size] of zero raises ZeroDivisionError; a negative
    one raises nothing and yields no chunk at all, whatever the
    list. *)
Theorem chunks_bad_size {A : Type} (text_list : list A) (chunk_size : Z) :
  (chunk_size <= 0)%Z ->
  chunks text_list chunk_size
  = if (chunk_size =? 0)%Z then Raise ZeroDivisionError else Ok [].
Proof.
  intros Hc. unfold chunks, total_chunks.
  destruct (chunk_size =? 0)%Z eqn:E; [reflexivity|].
  apply Z.eqb_neq in E. unfold py_range.
  replace (Z.to_nat (- (- Z.of_nat (List.length text_list) / chunk_size)))
    with 0; [reflexivity|].
  assert (0 <= - Z.of_nat (List.length text_list) / chunk_size)%Z; [|lia].
  rewrite <- Z.div_opp_opp by lia. apply Z.div_pos; lia.
Qed.

Lemma chunks_bad_size_witness :
  chunks [10; 20; 30] (-2) = Ok [].
Proof.
  apply (chunks_bad_size [10; 20; 30] (-2)). lia.
Defined.





(* ===================================================================== *)
(** ** Entity lists *)
(* ===================================================================== *)

Lemma split_on_cons sep s : exists p ps, split_on sep s = p :: ps.
Proof.
  induction s as [|c r (p & ps & IH)]; simpl; [eauto|].
  destruct (c =? sep)%N; [eauto|]. rewrite IH. eauto.
Qed.

Lemma split_on_no_sep sep s p :
  In p (split_on sep s) -> ~ In sep p.
Proof.
  revert p. induction s as [|c r IH]; intros p Hin; simpl in Hin.
  - destruct Hin as [<-|[]]. intros [].
  - destruct (c =? sep)%N eqn:E.
    + destruct Hin as [<-|Hin]; [intros []|now apply IH].
    + destruct (split_on_cons sep r) as (q & qs & Hq). rewrite Hq in *.
      apply N.eqb_neq in E.
      destruct Hin as [<-|Hin].
      * intros [Hc|Hc]; [congruence|]. apply (IH q); [now left|assumption].
      * apply IH. now right.
Qed.

Lemma split_on_length sep s :
  List.length (split_on sep s) = S (count_occ N.eq_dec s sep).
Proof.
  induction s as [|c r IH]; [reflexivity|]. simpl.
  destruct (N.eqb_spec c sep) as [->|Hne].
  - destruct (N.eq_dec sep sep); [|congruence]. simpl. now rewrite IH.
  - destruct (N.eq_dec c sep); [congruence|].
    destruct (split_on_cons sep r) as (q & qs & Hq). rewrite Hq in *.
    exact IH.
Qed.

Lemma split_on_app sep p rest :
  ~ In sep p -> split_on sep (p ++ sep :: rest) = p :: split_on sep rest.
Proof.
  induction p as [|c p IH]; intros Hn; simpl.
  - now rewrite N.eqb_refl.
  - destruct (N.eqb_spec c sep) as [->|Hne]; [exfalso; apply Hn; now left|].
    rewrite IH; [reflexivity|]. intros H. apply Hn. now right.
Qed.

Lemma split_on_piece sep p : ~ In sep p -> split_on sep p = [p].
Proof.
  induction p as [|c p IH]; intros Hn; simpl; [reflexivity|].
  destruct (N.eqb_spec c sep) as [->|Hne]; [exfalso; apply Hn; now left|].
  rewrite IH; [reflexivity|]. intros H. apply Hn. now right.
Qed.

(** Splitting a joined list gives the list back, if no piece holds the
    separator. *)
Lemma split_on_join sep l :
  l <> [] -> Forall (fun p => ~ In sep p) l ->
  split_on sep (join sep l) = l.
Proof.
  induction l as [|p [|q l] IH]; intros Hne Hl; [congruence| |].
  - simpl. apply split_on_piece. now inversion Hl.
  - inversion Hl as [|? ? Hp Hrest]; subst.
    change (join sep (p :: q :: l)) with (p ++ sep :: join sep (q :: l)).
    rewrite split_on_app by assumption. f_equal.
    apply IH; [discriminate|assumption].
Qed.

Section Strip.

Variable U : chartab.

Lemma lstrip_incl s c : In c (lstrip U s) -> In c s.
Proof.
  induction s as [|a s IH]; simpl; [auto|].
  destruct (uni_space U a); [right; auto|auto].
Qed.

Lemma lstrip_head s c r : lstrip U s = c :: r -> uni_space U c = false.
Proof.
  induction s as [|a s IH]; simpl; [discriminate|].
  destruct (uni_space U a) eqn:E; [assumption|]. now intros [= <- <-].
Qed.

Lemma lstrip_fixed c r :
  uni_space U c = false -> lstrip U (c :: r) = c :: r.
Proof. intros H. simpl. now rewrite H. Qed.

Lemma lstrip_idem s : lstrip U (lstrip U s) = lstrip U s.
Proof.
  destruct (lstrip U s) as [|c r] eqn:E; [reflexivity|].
  apply lstrip_fixed. eapply lstrip_head; eassumption.
Qed.

Lemma lstrip_app_keep y c z :
  uni_space U c = false -> lstrip U (y ++ c :: z) = lstrip U y ++ c :: z.
Proof.
  intros Hc. induction y as [|a y IH]; simpl.
  - now rewrite Hc.
  - destruct (uni_space U a); [assumption|reflexivity].
Qed.

Lemma rstrip_cons_keep c r :
  uni_space U c = false -> rstrip U (c :: r) = c :: rstrip U r.
Proof.
  intros Hc. unfold rstrip. simpl.
  rewrite (lstrip_app_keep (rev r) c [] Hc), rev_app_distr. reflexivity.
Qed.

Lemma rstrip_incl s c : In c (rstrip U s) -> In c s.
Proof.
  unfold rstrip. intros H. apply in_rev in H. apply lstrip_incl in H.
  now apply in_rev.
Qed.

Lemma strip_incl s c : In c (strip U s) -> In c s.
Proof. intros H. apply rstrip_incl, lstrip_incl in H. exact H. Qed.

(** A stripped string has no white space at either end. *)
Lemma strip_ends s :
  strip U s = [] \/
  (exists c r, strip U s = c :: r /\ uni_space U c = false) /\
  (exists r c, strip U s = r ++ [c] /\ uni_space U c = false).
Proof.
  unfold strip. destruct (lstrip U s) as [|c r] eqn:E; [now left|right].
  pose proof (lstrip_head s c r E) as Hc. split.
  - rewrite rstrip_cons_keep by assumption. eauto.
  - unfold rstrip.
    destruct (lstrip U (rev (c :: r))) as [|d q] eqn:Er.
    + simpl in Er. rewrite lstrip_app_keep in Er by assumption.
      destruct (lstrip U (rev r)); discriminate.
    + exists (rev q), d. split; [reflexivity|].
      eapply lstrip_head; eassumption.
Qed.

Lemma strip_idem s : strip U (strip U s) = strip U s.
Proof.
  destruct (strip_ends s) as [->|[(c & r & E & Hc) _]]; [reflexivity|].
  unfold strip at 1. rewrite E, (lstrip_fixed c r Hc), <- E.
  unfold strip, rstrip. now rewrite rev_involutive, lstrip_idem.
Qed.

Lemma parse_entities_filter_map l :
  map (strip U) (filter (fun e => nonempty (strip U e)) l)
  = filter nonempty (map (strip U) l).
Proof.
  induction l as [|e l IH]; simpl; [reflexivity|].
  destruct (nonempty (strip U e)); simpl; now rewrite IH.
Qed.

Lemma parsed_entity s e :
  In e (parse_entities U s) ->
  ~ In cp_comma e /\ nonempty e = true /\ strip U e = e /\
  (exists c r, e = c :: r /\ uni_space U c = false) /\
  (exists r c, e = r ++ [c] /\ uni_space U c = false).
Proof.
  unfold parse_entities. rewrite in_map_iff.
  intros (p & <- & Hp). apply filter_In in Hp as [Hp Hne].
  split; [|split; [assumption|split; [apply strip_idem|]]].
  - intros Hc. apply strip_incl in Hc.
    exact (split_on_no_sep cp_comma s p Hp Hc).
  - destruct (strip_ends p) as [E|H]; [|exact H].
    rewrite E in Hne. discriminate.
Qed.

(** X15. Every entity of [parse_entities] is non-empty, holds no comma
    and has no white space at either end. *)
Theorem parse_entities_clean (s e : text) :
  In e (parse_entities U s) ->
  ~ In cp_comma e /\
  (exists c r, e = c :: r /\ uni_space U c = false) /\
  (exists r c, e = r ++ [c] /\ uni_space U c = false).
Proof.
  intros H. destruct (parsed_entity s e H) as (H1 & _ & _ & H2). auto.
Qed.

Lemma filter_all {A} (f : A -> bool) l :
  (forall a, In a l -> f a = true) -> filter f l = l.
Proof.
  induction l as [|a l IH]; intros H; simpl; [reflexivity|].
  rewrite (H a) by now left. f_equal. apply IH. intros; apply H. now right.
Qed.

(** X16. Joining the parsed entities with commas and parsing again
    gives the same entities. *)
Theorem parse_entities_round_trip (s : text) :
  parse_entities U (join cp_comma (parse_entities U s))
  = parse_entities U s.
Proof.
  remember (parse_entities U s) as l eqn:El.
  assert (Hclean : Forall (fun e => ~ In cp_comma e /\ nonempty e = true
                                    /\ strip U e = e) l).
  { apply Forall_forall. intros e He. subst l.
    destruct (parsed_entity s e He) as (H1 & H2 & H3 & _). auto. }
  clear El. destruct l as [|e l]; [reflexivity|].
  unfold parse_entities. rewrite split_on_join.
  - rewrite parse_entities_filter_map.
    assert (Hm : map (strip U) (e :: l) = e :: l).
    { rewrite <- (map_id (e :: l)) at 2. apply map_ext_in.
      intros a Ha. rewrite Forall_forall in Hclean. now apply Hclean. }
    rewrite Hm. apply filter_all.
    intros a Ha. rewrite Forall_forall in Hclean. now apply Hclean.
  - discriminate.
  - eapply Forall_impl; [|exact Hclean]. intros a Ha. apply Ha.
Qed.

(** X17. The list [parse_supported_entities] has one entry for each
    comma and one more, empty entries included; [parse_entities] is
    that list without its empty entries. *)
Theorem parse_entities_of_supported (s : text) :
  List.length (parse_supported_entities U s)
    = S (count_occ N.eq_dec s cp_comma) /\
  parse_entities U s = filter nonempty (parse_supported_entities U s).
Proof.
  unfold parse_supported_entities, parse_entities. split.
  - rewrite length_map. apply split_on_length.
  - apply parse_entities_filter_map.
Qed.

End Strip.

(* ===================================================================== *)
(** ** The batch layer at concrete inputs *)
(* ===================================================================== *)

Lemma process_batch_rowwise_witness :
  exists new_texts,
    process_batch false (fun _ _ _ => []) toy_analyze toy_anonymize
                  ascii_tab toy_batch "texto" [] (str "en") 10
      = Ok (dict_set toy_batch "texto" new_texts) /\
    new_texts
    = [VStr (str "<EMAIL>"); VStr (str "Mi RUT es <ID>        ");
       VStr (str "<ID> y un texto largo")].
Proof.
  destruct (process_batch_rowwise nat false (fun _ _ _ => []) toy_analyze
              toy_anonymize ascii_tab [] (str "en") 10 toy_batch "texto"
              [VStr (str "a@b.cl"); VStr (str "Mi RUT es 12.345.678-9");
               VStr (str "P123 y un texto largo")])
    as (new & H1 & H2).
  - reflexivity.
  - repeat constructor; discriminate.
  - reflexivity.
  - exists new. split; [exact H1|].
    vm_compute in H1. injection H1 as H1. symmetry. exact H1.
Defined.


Lemma anonymize_batch_rowwise_witness :
  _anonymize_batch false (fun _ _ _ => []) toy_analyze toy_anonymize
                   toy_batch_none "texto" [] (str "en") 10
  = Ok [("texto"%string, [VStr (str "<EMAIL>"); VOther])].
Proof.
  rewrite (anonymize_batch_rowwise nat false (fun _ _ _ => [])
             toy_analyze toy_anonymize [] (str "en") 10
             toy_batch_none "texto" [VStr (str "a@b.cl"); VOther]).
  - vm_compute. reflexivity.
  - reflexivity.
  - reflexivity.
Defined.

Lemma batch_frame_witness :
  map fst (dict_set toy_batch "texto"
             [VStr (str "<EMAIL>"); VStr (str "Mi RUT es 12.345.678-9");
              VStr (str "P123 y un texto largo")])
  = map fst toy_batch.
Proof.
  apply (batch_frame nat false (fun _ _ _ => []) toy_analyze toy_anonymize
           ascii_tab [] (str "en") 10 toy_batch _ "texto").
  right. vm_compute. reflexivity.
Defined.

Lemma parse_entities_clean_witness :
  ~ In cp_comma (str "IP") /\
  (exists c r, str "IP" = c :: r /\ uni_space ascii_tab c = false) /\
  (exists r c, str "IP" = r ++ [c] /\ uni_space ascii_tab c = false).
Proof.
  apply (parse_entities_clean ascii_tab
           (str "EMAIL_ADDRESS, IP ,, PHONE_NUMBER ,")).
  vm_compute. right. left. reflexivity.
Defined.
